(** * Sliding-window median filter on 16-bit grids (median_filter_uint16.c)

    A shallow embedding of [bisect_left], [getp], [cmp_uint16] and
    [median_filter_uint16], followed by the properties stated for them.

    Conventions of the embedding.
    - A [uint16_t] array is a [list Z]; an access goes through [rd] / [wr],
      which fail ([None]) outside the array.  [None] therefore stands for
      an out-of-bounds access (undefined behaviour in C).
    - [size_t] is 64 bits wide and [int] 32 bits wide; conversions and
      arithmetic that can leave the range are wrapped with [to_size_t] and
      [to_int].
    - [for] loops with a counter become [for_range] / [for_down]; the
      [while] loop of [bisect_left] runs on fuel.
    - The allocator [malloc] is an argument of the filter, so that a
      failing allocation can be expressed.
    - The filter carries a ghost [trace]: the window contents at every
      point where the median is read. *)

From stdpp Require Import base numbers option list sorting.

Local Open Scope Z_scope.

(** ** C integer conversions *)

Definition INT_MAX : Z := 2 ^ 31 - 1.
Definition INT_MIN : Z := - 2 ^ 31.

Definition to_size_t (z : Z) : Z := z mod 2 ^ 64.
Definition to_int (z : Z) : Z := (z + 2 ^ 31) mod 2 ^ 32 - 2 ^ 31.

(** ** Arrays with checked accesses *)

Definition rd (a : list Z) (i : Z) : option Z :=
  if 0 <=? i then a !! Z.to_nat i else None.

Definition wr (a : list Z) (i : Z) (v : Z) : option (list Z) :=
  if (0 <=? i) && (i <? Z.of_nat (length a))
  then Some (<[Z.to_nat i := v]> a) else None.

(** ** Counted loops *)

(** [for_loop n i body s]: [n] iterations of [body], the counter starting
    at [i] and going up. *)
Fixpoint for_loop {St : Type} (n : nat) (i : Z)
    (body : Z → St → option St) (s : St) : option St :=
  match n with
  | O => Some s
  | S n' => s' ← body i s; for_loop n' (i + 1) body s'
  end.

(** [for (i = lo; i < hi; ++i) body] *)
Definition for_range {St : Type} (lo hi : Z)
    (body : Z → St → option St) (s : St) : option St :=
  for_loop (Z.to_nat (hi - lo)) lo body s.

(** [n] iterations, the counter starting at [j] and going down. *)
Fixpoint down_loop {St : Type} (n : nat) (j : Z)
    (body : Z → St → option St) (s : St) : option St :=
  match n with
  | O => Some s
  | S n' => s' ← body j s; down_loop n' (j - 1) body s'
  end.

(** [for (j = hi; j > lo; --j) body] *)
Definition for_down {St : Type} (hi lo : Z)
    (body : Z → St → option St) (s : St) : option St :=
  down_loop (Z.to_nat (hi - lo)) hi body s.

(** ** bisect_left *)

Fixpoint bisect_loop (fuel : nat) (arr : list Z) (lo hi val : Z) : option Z :=
  if lo <? hi then
    match fuel with
    | O => None
    | S fuel' =>
        let mid := Z.shiftr (to_size_t (lo + hi)) 1 in
        x ← rd arr mid;
        if x <? val then bisect_loop fuel' arr (mid + 1) hi val
        else bisect_loop fuel' arr lo mid val
    end
  else Some lo.

(** The interval [hi - lo] shrinks at every iteration, so [n] units of
    fuel are never used up (lemma [bisect_loop_total]). *)
Definition bisect_left (arr : list Z) (n val : Z) : option Z :=
  bisect_loop (Z.to_nat n) arr 0 n val.

(** ** getp: a pixel with mirror padding *)

(** The index [r * width + c] that [getp] computes after mirroring. *)
Definition getp_index (width height r c : Z) : Z :=
  let r := if r <? 0 then to_int (- r)
           else if height <=? to_size_t r
                then to_int (to_size_t (2 * height - to_size_t r - 2))
                else r in
  let c := if c <? 0 then to_int (- c)
           else if width <=? to_size_t c
                then to_int (to_size_t (2 * width - to_size_t c - 2))
                else c in
  to_size_t (to_size_t r * width + to_size_t c).

Definition getp (src : list Z) (width height r c : Z) : option Z :=
  rd src (getp_index width height r c).

(** ** cmp_uint16 and the library routines *)

Definition cmp_uint16 (va vb : Z) : Z :=
  if va <? vb then -1 else if vb <? va then 1 else 0.

(** The order a comparator induces: [a] may precede [b]. *)
Definition cmp_le (cmp : Z → Z → Z) (a b : Z) : Prop := cmp a b ≤ 0.

Global Instance cmp_le_dec cmp a b : Decision (cmp_le cmp a b).
Proof. unfold cmp_le. apply _. Defined.

(** [qsort(base, n, sizeof(uint16_t), cmp)] of the C library: the first
    [n] elements are rearranged into the order of [cmp].  On integers
    compared by [cmp_uint16] every sorting algorithm yields the same
    array (lemma [qsort_unique]); merge sort stands for it. *)
Definition qsort (base : list Z) (n : Z) (cmp : Z → Z → Z) : option (list Z) :=
  if (0 <=? n) && (n <=? Z.of_nat (length base))
  then Some (merge_sort (cmp_le cmp) (take (Z.to_nat n) base)
             ++ drop (Z.to_nat n) base)
  else None.

(** [memcpy(dst, src, bytes)] of the C library on [uint16_t] arrays. *)
Definition memcpy (dst src : list Z) (bytes : Z) : option (list Z) :=
  let n := bytes / 2 in
  if (n <=? Z.of_nat (length src)) && (n <=? Z.of_nat (length dst))
  then Some (take (Z.to_nat n) src ++ drop (Z.to_nat n) dst)
  else None.

(** ** median_filter_uint16 *)

Record state : Type := State {
  win : list Z;            (* the window buffer *)
  dst : list Z;            (* the output grid *)
  trace : list (list Z)    (* ghost: the window at each median read *)
}.

(** [dst[idx] = win[half * ksize + half]] *)
Definition write_median (ksize half idx : Z) (s : state) : option state :=
  m ← rd (win s) (to_size_t (half * ksize + half));
  d ← wr (dst s) idx m;
  Some (State (win s) d (trace s ++ [win s])).

(** Lines 114-116: locate [win[0]] by value and close the gap. *)
Definition remove_first (win_area : Z) (w : list Z) : option (list Z) :=
  w0 ← rd w 0;
  pos ← bisect_left w win_area w0;
  for_range pos (to_size_t (win_area - 1))
    (λ i w, x ← rd w (i + 1); wr w i x) w.

(** Lines 119-124: the [ksize] samples of column [c + half] go to the
    scratch array [new_col[15]] (its initial content is never read). *)
Definition fetch_column (src : list Z) (width height half r c : Z)
    : option (list Z) :=
  for_range (to_int (- to_int half)) (to_int half + 1)
    (λ dr new_col,
       let rr := to_int (to_size_t (r + dr)) in
       let cc := to_int (to_size_t (c + half)) in
       v ← getp src width height rr cc;
       wr new_col (dr + to_int half) v)
    (replicate 15 0).

(** Lines 127-131: one insertion. *)
Definition insert_val (win_area val : Z) (w : list Z) : option (list Z) :=
  ins_pos ← bisect_left w (to_size_t (win_area - 1)) val;
  w' ← for_down (to_size_t (win_area - 1)) ins_pos
         (λ j w, x ← rd w (j - 1); wr w j x) w;
  wr w' ins_pos val.

(** Lines 126-132: the insertion loop. *)
Definition insert_column (ksize win_area : Z) (new_col w : list Z)
    : option (list Z) :=
  for_range 0 ksize (λ i w, val ← rd new_col i; insert_val win_area val w) w.

(** The window part of one iteration of the column loop. *)
Definition slide_window (src : list Z) (width height ksize half win_area r c : Z)
    (w : list Z) : option (list Z) :=
  w1 ← remove_first win_area w;
  new_col ← fetch_column src width height half r c;
  insert_column ksize win_area new_col w1.

(** Lines 109-136: the body of the column loop. *)
Definition slide_column (src : list Z) (width height ksize half win_area r c : Z)
    (s : state) : option state :=
  w' ← slide_window src width height ksize half win_area r c (win s);
  write_median ksize half (to_size_t (r * width + c))
    (State w' (dst s) (trace s)).

(** Lines 90-99 and 142-149: fill the window with the neighbourhood of
    column 0 of row [r0] and sort it.  The two sites differ only in the
    row expression: [(int)(r + 1 + dr)], computed in [size_t], at the
    rebuild ([r0 = r + 1]) and [(int)(0 + dr)] at the initial build,
    which is the same value for [r0 = 0]. *)
Definition build_window (src : list Z) (width height half win_area r0 : Z)
    (w : list Z) : option (list Z) :=
  wi ← for_range (to_int (- to_int half)) (to_int half + 1)
         (λ dr wi,
            for_range (to_int (- to_int half)) (to_int half + 1)
              (λ dc '(w, idx),
                 v ← getp src width height
                       (to_int (to_size_t (r0 + dr))) (to_int (0 + dc));
                 w' ← wr w idx v;
                 Some (w', idx + 1))
              wi)
         (w, 0);
  qsort wi.1 win_area cmp_uint16.

(** Lines 104-151: the body of the row loop. *)
Definition filter_row (src : list Z) (width height ksize half win_area r : Z)
    (s : state) : option state :=
  s1 ← write_median ksize half (to_size_t (r * width)) s;
  s2 ← for_range 1 width
         (slide_column src width height ksize half win_area r) s1;
  if r + 1 <? height then
    w ← build_window src width height half win_area (r + 1) (win s2);
    Some (State w (dst s2) (trace s2))
  else Some s2.

(** The whole routine.  [malloc] maps a size in bytes to the buffer
    obtained ([None]: the allocation fails).  The result is the state at
    [return]; [None] is an out-of-bounds access. *)
Definition median_filter_run (malloc : Z → option (list Z))
    (src dst0 : list Z) (width height ksize : Z) : option state :=
  if ksize mod 2 =? 0 then
    d ← memcpy dst0 src (to_size_t (to_size_t (width * height) * 2));
    Some (State [] d [])
  else
    let half := ksize / 2 in
    let win_area := to_size_t (ksize * ksize) in
    match malloc (to_size_t (win_area * 2)) with
    | None => Some (State [] dst0 [])
    | Some buf =>
        w0 ← build_window src width height half win_area 0 buf;
        for_range 0 height
          (filter_row src width height ksize half win_area)
          (State w0 dst0 [])
    end.

Definition median_filter_uint16 (malloc : Z → option (list Z))
    (src dst0 : list Z) (width height ksize : Z) : option (list Z) :=
  dst <$> median_filter_run malloc src dst0 width height ksize.

(** An allocator that succeeds and one that fails. *)
Definition malloc_ok (bytes : Z) : option (list Z) :=
  Some (replicate (Z.to_nat (bytes / 2)) 0).
Definition malloc_fail (bytes : Z) : option (list Z) := None.

(** The grid of the example program. *)
Definition example_src : list Z :=
  [10; 12; 13; 15; 17;
    9; 11; 14; 16; 18;
   20; 22; 23; 25; 27;
   19; 21; 24; 26; 28].


(** ** The vocabulary of the specification *)

(** The reflection rule of the Boundary Sampler, one axis. *)
Definition reflect (extent v : Z) : Z :=
  if v <? 0 then - v else if extent <=? v then 2 * extent - v - 2 else v.

(** The sample at row [r], column [c] of a row-major grid. *)
Definition sample (src : list Z) (width r c : Z) : option Z :=
  rd src (r * width + c).

Definition pixel (src : list Z) (width r c : Z) : Z :=
  default 0 (sample src width r c).

(** The sample at row [r], column [c] of the grid: defined only for a
    coordinate pair of the grid. *)
Definition grid_sample (src : list Z) (width height r c : Z) : option Z :=
  if (0 <=? r) && (r <? height) && (0 <=? c) && (c <? width)
  then rd src (r * width + c) else None.

(** The sample at the mirrored coordinates. *)
Definition mirror (src : list Z) (width height r c : Z) : Z :=
  pixel src width (reflect height r) (reflect width c).

(** The offsets [-half .. half]. *)
Definition offsets (ksize : Z) : list Z := seqZ (- (ksize / 2)) ksize.

(** The mirror-reflected [ksize] by [ksize] neighbourhood of [(r, c)],
    row by row. *)
Definition neighborhood (src : list Z) (width height ksize r c : Z) : list Z :=
  mjoin ((λ dr, (λ dc, mirror src width height (r + dr) (c + dc))
                  <$> offsets ksize) <$> offsets ksize).

(** The [ksize] by [ksize] block around [(r, c)], read without any
    reflection. *)
Definition block (src : list Z) (width ksize r c : Z) : list Z :=
  mjoin ((λ dr, (λ dc, pixel src width (r + dr) (c + dc))
                  <$> offsets ksize) <$> offsets ksize).

(** The [ksize] Boundary-Sampler values of column [c + half] around
    row [r]. *)
Definition column_values (src : list Z) (width height ksize r c : Z) : list Z :=
  (λ dr, mirror src width height (r + dr) (c + ksize / 2)) <$> offsets ksize.

(** Full sort, and the median it yields. *)
Definition full_sort (l : list Z) : list Z := merge_sort Z.le l.

Definition median_by_sort (l : list Z) : Z :=
  nth (length l / 2)%nat (full_sort l) 0.

(** The element the filter reads as the median. *)
Definition middle (ksize : Z) (w : list Z) : Z :=
  nth (Z.to_nat (ksize / 2 * ksize + ksize / 2)) w 0.

(** InsertOne: [v] goes before the first element that is not smaller. *)
Fixpoint insert_one (v : Z) (l : list Z) : list Z :=
  match l with
  | [] => [v]
  | x :: l' => if x <? v then x :: insert_one v l' else v :: x :: l'
  end.

(** All slots but the last. *)
Definition drop_last (l : list Z) : list Z := take (length l - 1)%nat l.

(** RemoveSmallest on the array: the tail moves down one slot, the last
    slot keeps its old content. *)
Definition shift_down (w : list Z) : list Z :=
  tail w ++ drop (length w - 1)%nat w.

(** What the array holds after an insertion: the value is inserted into
    the sequence held by all slots but the last. *)
Definition insert_slot (w : list Z) (v : Z) : list Z :=
  insert_one v (drop_last w).

(** What one column slide does to the window. *)
Definition slide_spec (w vs : list Z) : list Z :=
  foldl insert_slot (shift_down w) vs.

(** The windows of row [r]: the sorted neighbourhood of [(r, 0)], then
    one slide per further column. *)
Fixpoint slide_from (src : list Z) (width height ksize r : Z)
    (w : list Z) (cs : list Z) : list (list Z) :=
  match cs with
  | [] => []
  | c :: cs' =>
      let w' := slide_spec w (column_values src width height ksize r c) in
      w' :: slide_from src width height ksize r w' cs'
  end.

Definition row_windows (src : list Z) (width height ksize r : Z)
    : list (list Z) :=
  let w0 := full_sort (neighborhood src width height ksize r 0) in
  w0 :: slide_from src width height ksize r w0 (seqZ 1 (width - 1)).

Definition all_windows (src : list Z) (width height ksize : Z)
    : list (list Z) :=
  mjoin (row_windows src width height ksize <$> seqZ 0 height).

(** The preconditions under which every access of the filter is defined:
    an odd kernel that fits the scratch column, a radius below both
    extents, and coordinates that fit the type [int]. *)
Definition safe_dims (width height ksize : Z) : Prop :=
  ksize mod 2 = 1 ∧ 0 < ksize ≤ 15 ∧
  ksize / 2 < width ∧ ksize / 2 < height ∧
  width + ksize / 2 ≤ INT_MAX ∧ height + ksize / 2 ≤ INT_MAX.

(** ** Auxiliary notions of the proofs *)

(** Sortedness read through indices, as the array code sees it. *)
Definition ascending (l : list Z) : Prop :=
  ∀ (i j : nat) x y, (i ≤ j)%nat → l !! i = Some x → l !! j = Some y → x ≤ y.

(** [filled pre buf]: the buffer [buf] after its first slots were
    overwritten with [pre]. *)
Definition filled (pre buf : list Z) : list Z := pre ++ drop (length pre) buf.

(** Ghost invariant of the scan: the output written so far is the list
    of the medians read so far, over the initial buffer [dst0]. *)
Definition written (ksize : Z) (dst0 : list Z) (s : state) : Prop :=
  dst s = filled (middle ksize <$> trace s) dst0.

(** The update as the specification words it: [ksize] RemoveSmallest
    operations, then one InsertOne per new value. *)
Definition remove_smallest (w : list Z) : list Z := tail w.

Definition slide_claimed (ksize : Z) (w vs : list Z) : list Z :=
  foldl (λ l v, insert_one v l) (Nat.iter (Z.to_nat ksize) remove_smallest w) vs.

(** ** Integer conversions *)

Lemma to_size_t_id z : 0 ≤ z < 2 ^ 64 → to_size_t z = z.
Proof. intros. unfold to_size_t. apply Z.mod_small. lia. Qed.

Lemma to_int_id z : INT_MIN ≤ z ≤ INT_MAX → to_int z = z.
Proof.
  unfold INT_MIN, INT_MAX, to_int. intros.
  rewrite Z.mod_small; lia.
Qed.

Lemma to_int_to_size_t z : to_int (to_size_t z) = to_int z.
Proof.
  unfold to_int, to_size_t. f_equal.
  change (2 ^ 64) with (2 ^ 32 * 2 ^ 32).
  rewrite <- (Z.add_mod_idemp_l (z mod _)) by lia.
  rewrite Z.rem_mul_r by lia.
  rewrite (Z.mul_comm (2 ^ 32)), Z.mod_add by lia.
  rewrite Z.mod_mod by lia.
  rewrite Z.add_mod_idemp_l by lia. done.
Qed.

(** ** Array accesses *)

Lemma rd_lookup a i : 0 ≤ i → rd a i = a !! Z.to_nat i.
Proof. intros. unfold rd. case_match; [done | lia]. Qed.

Lemma wr_insert a i v :
  0 ≤ i < Z.of_nat (length a) → wr a i v = Some (<[Z.to_nat i := v]> a).
Proof.
  intros. unfold wr.
  destruct (0 <=? i) eqn:?, (i <? Z.of_nat (length a)) eqn:?; simpl; [done|lia..].
Qed.

Lemma wr_nat a (n : nat) v :
  (n < length a)%nat → wr a (Z.of_nat n) v = Some (<[n := v]> a).
Proof. intros. rewrite wr_insert by lia. by rewrite Nat2Z.id. Qed.

(** ** Loop rules *)

Lemma for_loop_inv {St : Type} (P : Z → St → Prop) n i body (s : St) :
  P i s →
  (∀ j t, i ≤ j < i + Z.of_nat n → P j t →
          ∃ t', body j t = Some t' ∧ P (j + 1) t') →
  ∃ s', for_loop n i body s = Some s' ∧ P (i + Z.of_nat n) s'.
Proof.
  revert i s. induction n as [|n IH]; intros i s Hs Hstep; simpl.
  - exists s. split; [done|]. by replace (i + Z.of_nat 0) with i by lia.
  - destruct (Hstep i s) as (t & -> & Ht); [lia|done|]. simpl.
    destruct (IH (i + 1) t) as (s' & -> & Hs'); [done| |].
    + intros j u ? ?. apply Hstep; [lia|done].
    + exists s'. split; [done|].
      by replace (i + Z.of_nat (S n)) with (i + 1 + Z.of_nat n) by lia.
Qed.

Lemma for_range_inv {St : Type} (P : Z → St → Prop) lo hi body (s : St) :
  lo ≤ hi → P lo s →
  (∀ j t, lo ≤ j < hi → P j t → ∃ t', body j t = Some t' ∧ P (j + 1) t') →
  ∃ s', for_range lo hi body s = Some s' ∧ P hi s'.
Proof.
  intros Hle Hs Hstep. unfold for_range.
  destruct (for_loop_inv P (Z.to_nat (hi - lo)) lo body s) as (s' & ? & ?);
    [done| |].
  - intros j t ? ?. apply Hstep; [lia|done].
  - exists s'. split; [done|].
    replace hi with (lo + Z.of_nat (Z.to_nat (hi - lo))) by lia. done.
Qed.

Lemma down_loop_inv {St : Type} (P : Z → St → Prop) n j body (s : St) :
  P j s →
  (∀ k t, j - Z.of_nat n < k ≤ j → P k t →
          ∃ t', body k t = Some t' ∧ P (k - 1) t') →
  ∃ s', down_loop n j body s = Some s' ∧ P (j - Z.of_nat n) s'.
Proof.
  revert j s. induction n as [|n IH]; intros j s Hs Hstep; simpl.
  - exists s. split; [done|]. by replace (j - Z.of_nat 0) with j by lia.
  - destruct (Hstep j s) as (t & -> & Ht); [lia|done|]. simpl.
    destruct (IH (j - 1) t) as (s' & -> & Hs'); [done| |].
    + intros k u ? ?. apply Hstep; [lia|done].
    + exists s'. split; [done|].
      by replace (j - Z.of_nat (S n)) with (j - 1 - Z.of_nat n) by lia.
Qed.

Lemma for_down_inv {St : Type} (P : Z → St → Prop) hi lo body (s : St) :
  lo ≤ hi → P hi s →
  (∀ k t, lo < k ≤ hi → P k t → ∃ t', body k t = Some t' ∧ P (k - 1) t') →
  ∃ s', for_down hi lo body s = Some s' ∧ P lo s'.
Proof.
  intros Hle Hs Hstep. unfold for_down.
  destruct (down_loop_inv P (Z.to_nat (hi - lo)) hi body s) as (s' & ? & ?);
    [done| |].
  - intros k t ? ?. apply Hstep; [lia|done].
  - exists s'. split; [done|].
    replace lo with (hi - Z.of_nat (Z.to_nat (hi - lo))) by lia. done.
Qed.

(** ** Ascending sequences *)

Lemma Sorted_ascending l : Sorted Z.le l → ascending l.
Proof.
  intros Hs%Sorted_StronglySorted; [|apply _].
  induction Hs as [|a l Hs IH Hall]; intros i j x y Hij Hi Hj.
  - by rewrite lookup_nil in Hi.
  - destruct i as [|i], j as [|j]; simplify_eq/=; [lia| |lia|].
    + rewrite Forall_forall in Hall. apply Hall.
      by eapply list_elem_of_lookup_2.
    + eapply IH; [|done..]. lia.
Qed.

Lemma ascending_Sorted l : ascending l → Sorted Z.le l.
Proof.
  induction l as [|a l IH]; intros Ha; [constructor|].
  constructor.
  - apply IH. intros i j x y ? ? ?. apply (Ha (S i) (S j)); [lia|done..].
  - destruct l as [|b l]; constructor.
    apply (Ha 0%nat 1%nat); [lia|done..].
Qed.

Lemma ascending_take n l : ascending l → ascending (take n l).
Proof.
  intros Ha i j x y ? [? ?]%lookup_take_Some [? ?]%lookup_take_Some.
  by apply (Ha i j).
Qed.

Lemma full_sort_Sorted l : Sorted Z.le (full_sort l).
Proof. apply Sorted_merge_sort. apply _. Qed.

Lemma full_sort_Permutation l : full_sort l ≡ₚ l.
Proof. apply merge_sort_Permutation. Qed.

Lemma full_sort_length l : length (full_sort l) = length l.
Proof. by rewrite full_sort_Permutation. Qed.

(** Any procedure that returns an ascending rearrangement returns what
    [full_sort] returns. *)
Lemma qsort_unique l l' : Sorted Z.le l' → l' ≡ₚ l → l' = full_sort l.
Proof.
  intros Hs Hp. apply (Sorted_unique Z.le); [done|apply full_sort_Sorted|].
  by rewrite Hp, full_sort_Permutation.
Qed.

(** ** bisect_left *)

Lemma shiftr_mid lo hi :
  0 ≤ lo → lo < hi → hi < 2 ^ 63 →
  lo ≤ Z.shiftr (to_size_t (lo + hi)) 1 < hi.
Proof.
  intros. rewrite to_size_t_id by lia.
  rewrite Z.shiftr_div_pow2 by lia. change (2 ^ 1) with 2.
  split.
  - apply Z.div_le_lower_bound; lia.
  - apply Z.div_lt_upper_bound; lia.
Qed.

(** The loop never runs out of fuel and stays inside [arr[0 .. n)]. *)
Lemma bisect_loop_total fuel arr n val lo hi :
  n ≤ Z.of_nat (length arr) → n < 2 ^ 63 →
  0 ≤ lo → hi ≤ n → hi - lo ≤ Z.of_nat fuel →
  ∃ pos, bisect_loop fuel arr lo hi val = Some pos.
Proof.
  intros Hn Hn63. revert lo hi.
  induction fuel as [|fuel IH]; intros lo hi Hlo Hhi Hfuel; simpl.
  - case_match; [lia|eauto].
  - destruct (lo <? hi) eqn:Hlt; [|eauto].
    apply Z.ltb_lt in Hlt.
    assert (lo ≤ Z.shiftr (to_size_t (lo + hi)) 1 < hi) as Hmid
      by (apply shiftr_mid; lia).
    destruct (lookup_lt_is_Some_2 arr
                (Z.to_nat (Z.shiftr (to_size_t (lo + hi)) 1))) as [x Hx];
      [lia|].
    rewrite rd_lookup, Hx by lia. simpl.
    case_match; apply IH; lia.
Qed.

Lemma bisect_loop_spec fuel arr n val lo hi :
  n ≤ Z.of_nat (length arr) → n < 2 ^ 63 →
  ascending (take (Z.to_nat n) arr) →
  0 ≤ lo → lo ≤ hi → hi ≤ n → hi - lo ≤ Z.of_nat fuel →
  (∀ (i : nat) x, Z.of_nat i < lo → arr !! i = Some x → x < val) →
  (∀ (i : nat) x, hi ≤ Z.of_nat i < n → arr !! i = Some x → val ≤ x) →
  ∃ pos : nat,
    bisect_loop fuel arr lo hi val = Some (Z.of_nat pos) ∧
    lo ≤ Z.of_nat pos ≤ hi ∧
    (∀ (i : nat) x, (i < pos)%nat → arr !! i = Some x → x < val) ∧
    (∀ (i : nat) x, Z.of_nat pos ≤ Z.of_nat i < n → arr !! i = Some x → val ≤ x).
Proof.
  intros Hn Hn63 Hasc. revert lo hi.
  induction fuel as [|fuel IH]; intros lo hi Hlo Hle Hhi Hfuel Hlow Hhigh; simpl.
  - assert (lo = hi) as -> by lia. rewrite Z.ltb_irrefl.
    exists (Z.to_nat hi). rewrite Z2Nat.id by lia.
    split_and!; [done|lia|lia| |].
    + intros i x ?. apply Hlow. lia.
    + intros i x ?. apply Hhigh. lia.
  - destruct (lo <? hi) eqn:Hlt.
    + apply Z.ltb_lt in Hlt.
      assert (lo ≤ Z.shiftr (to_size_t (lo + hi)) 1 < hi) as Hmid
        by (apply shiftr_mid; lia).
      set (mid := Z.shiftr (to_size_t (lo + hi)) 1) in *.
      destruct (lookup_lt_is_Some_2 arr (Z.to_nat mid)) as [x Hx]; [lia|].
      rewrite rd_lookup, Hx by lia. simpl.
      destruct (x <? val) eqn:Hcmp.
      * apply Z.ltb_lt in Hcmp.
        destruct (IH (mid + 1) hi) as (pos & ? & ? & ? & ?);
          [lia|lia|lia|lia| |exact Hhigh|].
        { intros i y ? Hy. destruct (decide (Z.of_nat i < lo)); [by eapply Hlow|].
          assert (y ≤ x); [|lia].
          apply (Hasc i (Z.to_nat mid)); [lia|..];
            apply lookup_take_Some; split; [done|lia|done|lia]. }
        exists pos. split_and!; [done|lia..|done|done].
      * apply Z.ltb_ge in Hcmp.
        destruct (IH lo mid) as (pos & ? & ? & ? & ?);
          [lia|lia|lia|lia|exact Hlow| |].
        { intros i y ? Hy. destruct (decide (hi ≤ Z.of_nat i)); [eapply Hhigh; [|done]; lia|].
          assert (x ≤ y); [|lia].
          apply (Hasc (Z.to_nat mid) i); [lia|..];
            apply lookup_take_Some; split; [done|lia|done|lia]. }
        exists pos. split_and!; [done|lia..|done|done].
    + apply Z.ltb_ge in Hlt. assert (lo = hi) as -> by lia.
      exists (Z.to_nat hi). rewrite Z2Nat.id by lia.
      split_and!; [done|lia|lia| |].
      * intros i x ?. apply Hlow. lia.
      * intros i x ?. apply Hhigh. lia.
Qed.

(** On an ascending prefix [bisect_left] returns the leftmost insertion
    position of [val]. *)
Lemma bisect_left_spec arr n val :
  0 ≤ n ≤ Z.of_nat (length arr) → n < 2 ^ 63 →
  ascending (take (Z.to_nat n) arr) →
  ∃ pos : nat,
    bisect_left arr n val = Some (Z.of_nat pos) ∧
    Z.of_nat pos ≤ n ∧
    (∀ (i : nat) x, (i < pos)%nat → arr !! i = Some x → x < val) ∧
    (∀ (i : nat) x, Z.of_nat pos ≤ Z.of_nat i < n → arr !! i = Some x → val ≤ x).
Proof.
  intros Hn Hn63 Hasc. unfold bisect_left.
  destruct (bisect_loop_spec (Z.to_nat n) arr n val 0 n)
    as (pos & ? & ? & ? & ?); [lia|lia|done|lia|lia|lia|lia| | |].
  - intros; lia.
  - intros; lia.
  - exists pos. split_and!; [done|lia|done|done].
Qed.

(** ** InsertOne and RemoveSmallest on lists *)

Lemma insert_one_length v l : length (insert_one v l) = S (length l).
Proof. induction l as [|x l IH]; simpl; [done|]. case_match; simpl; lia. Qed.

Lemma insert_one_Permutation v l : insert_one v l ≡ₚ v :: l.
Proof.
  induction l as [|x l IH]; simpl; [done|].
  case_match; [|done]. rewrite IH. apply Permutation_swap.
Qed.

Lemma insert_one_Sorted v l : Sorted Z.le l → Sorted Z.le (insert_one v l).
Proof.
  induction 1 as [|x l Hs IH Hhd]; simpl; [repeat constructor|].
  destruct (x <? v) eqn:Hc.
  - apply Z.ltb_lt in Hc. constructor; [done|].
    destruct Hhd as [|y l Hxy]; simpl; [constructor; lia|].
    case_match; constructor; lia.
  - apply Z.ltb_ge in Hc. repeat constructor; done.
Qed.

(** The position found by a leftmost search is where [insert_one] puts
    the value. *)
Lemma insert_one_at v l (pos : nat) :
  (pos ≤ length l)%nat →
  (∀ (i : nat) x, (i < pos)%nat → l !! i = Some x → x < v) →
  (∀ x, l !! pos = Some x → v ≤ x) →
  insert_one v l = take pos l ++ v :: drop pos l.
Proof.
  revert pos. induction l as [|x l IH]; intros pos Hlen Hlow Hhigh; simpl.
  - by destruct pos.
  - destruct pos as [|pos]; simpl.
    + specialize (Hhigh x eq_refl).
      destruct (x <? v) eqn:Hc; [apply Z.ltb_lt in Hc; lia|done].
    + pose proof (Hlow 0%nat x ltac:(lia) eq_refl) as Hx.
      apply Z.ltb_lt in Hx. rewrite Hx. f_equal.
      apply IH; [simpl in Hlen; lia| |done].
      intros i y ? ?. apply (Hlow (S i)); [lia|done].
Qed.

Lemma lookup_insert_at (l : list Z) v (pos k : nat) :
  (pos ≤ length l)%nat →
  (take pos l ++ v :: drop pos l) !! k =
    if decide (k < pos)%nat then l !! k
    else if decide (k = pos) then Some v else l !! pred k.
Proof.
  intros Hlen.
  assert (length (take pos l) = pos) as Htk by (rewrite length_take; lia).
  destruct (decide (k < pos)%nat).
  - rewrite lookup_app_l by lia. by rewrite lookup_take_lt.
  - rewrite lookup_app_r by lia. rewrite Htk.
    destruct (decide (k = pos)) as [->|].
    + by rewrite Nat.sub_diag.
    + rewrite lookup_cons_ne_0 by lia. rewrite lookup_drop. f_equal. lia.
Qed.

Lemma length_tail (l : list Z) : length (tail l) = pred (length l).
Proof. by destruct l. Qed.

Lemma drop_last_length l : length (drop_last l) = pred (length l).
Proof. unfold drop_last. rewrite length_take. lia. Qed.

Lemma drop_last_Sorted l : Sorted Z.le l → Sorted Z.le (drop_last l).
Proof.
  intros. apply ascending_Sorted, ascending_take. by apply Sorted_ascending.
Qed.

Lemma shift_down_length l : length (shift_down l) = length l.
Proof.
  unfold shift_down. rewrite length_app, length_tail, length_drop.
  destruct l; simpl; lia.
Qed.

Lemma lookup_shift_down l (k : nat) :
  shift_down l !! k =
    if decide (S k < length l)%nat then l !! S k else l !! k.
Proof.
  unfold shift_down. destruct (decide (S k < length l)%nat).
  - rewrite lookup_app_l by (rewrite length_tail; lia). apply lookup_tail.
  - destruct (decide (k < length l)%nat).
    + rewrite lookup_app_r by (rewrite length_tail; lia).
      rewrite lookup_drop, length_tail. f_equal. lia.
    + rewrite (lookup_ge_None_2 l) by lia. apply lookup_ge_None_2.
      rewrite length_app, length_tail, length_drop. lia.
Qed.

Lemma drop_last_shift_down l : drop_last (shift_down l) = tail l.
Proof.
  unfold drop_last. rewrite shift_down_length. unfold shift_down.
  rewrite take_app_length'; [done|]. rewrite length_tail. lia.
Qed.

Lemma shift_down_Sorted l : Sorted Z.le l → Sorted Z.le (shift_down l).
Proof.
  intros Hs%Sorted_ascending. apply ascending_Sorted.
  intros i j x y Hij. rewrite !lookup_shift_down.
  repeat case_decide; intros Hi Hj.
  - apply (Hs (S i) (S j)); [lia|done..].
  - apply (Hs (S i) j); [|done..].
    apply lookup_lt_Some in Hj. lia.
  - apply lookup_lt_Some in Hi. lia.
  - by apply (Hs i j).
Qed.

Lemma insert_slot_length w v :
  (0 < length w)%nat → length (insert_slot w v) = length w.
Proof.
  intros. unfold insert_slot. rewrite insert_one_length, drop_last_length. lia.
Qed.

Lemma insert_slot_Sorted w v : Sorted Z.le w → Sorted Z.le (insert_slot w v).
Proof. intros. by apply insert_one_Sorted, drop_last_Sorted. Qed.

Lemma slide_spec_length w vs :
  (0 < length w)%nat → length (slide_spec w vs) = length w.
Proof.
  intros Hw. unfold slide_spec. rewrite <- (shift_down_length w) in Hw |- * .
  generalize dependent (shift_down w). induction vs as [|v vs IH]; intros a Ha;
    simpl; [done|].
  rewrite IH; rewrite insert_slot_length; done.
Qed.

Lemma slide_spec_Sorted w vs : Sorted Z.le w → Sorted Z.le (slide_spec w vs).
Proof.
  intros Hw%shift_down_Sorted. unfold slide_spec.
  generalize dependent (shift_down w). induction vs as [|v vs IH]; intros a Ha;
    simpl; [done|].
  by apply IH, insert_slot_Sorted.
Qed.

(** ** The removal and insertion loops on the window array *)

(** Lines 114-116 on an ascending window: the search returns position 0
    and the shift realises [shift_down]. *)
Lemma remove_first_spec win_area w :
  Z.of_nat (length w) = win_area → 0 < win_area < 2 ^ 63 →
  Sorted Z.le w →
  remove_first win_area w = Some (shift_down w).
Proof.
  intros Hlen Hpos Hs%Sorted_ascending. unfold remove_first.
  destruct w as [|w0 w'] eqn:Ew; [simpl in Hlen; lia|]. rewrite <- Ew in *.
  assert (w !! 0%nat = Some w0) as H0 by (by rewrite Ew).
  rewrite rd_lookup by lia. change (Z.to_nat 0) with 0%nat. rewrite H0. simpl.
  destruct (bisect_left_spec w win_area w0) as (pos & -> & _ & Hlow & _);
    [lia|lia|by apply ascending_take|]. simpl.
  assert (pos = 0%nat) as ->.
  { destruct pos as [|pos]; [done|].
    specialize (Hlow 0%nat w0 ltac:(lia) H0). lia. }
  rewrite to_size_t_id by lia.
  destruct (for_range_inv
    (λ i u, length u = length w ∧
            ∀ k : nat, u !! k = if decide (Z.of_nat k < i)
                                then w !! S k else w !! k)
    (Z.of_nat 0) (win_area - 1) (λ i u, x ← rd u (i + 1); wr u i x) w)
    as (u & -> & Hu1 & Hu2).
  - simpl; lia.
  - split; [done|]. intros k. case_decide; [lia|done].
  - intros j t Hj [Ht1 Ht2].
    destruct (lookup_lt_is_Some_2 w (Z.to_nat (j + 1))) as [x Hx]; [lia|].
    rewrite rd_lookup by lia. rewrite Ht2.
    case_decide; [lia|]. rewrite Hx. simpl.
    rewrite wr_insert by lia. eexists; split; [done|].
    rewrite length_insert. split; [done|]. intros k.
    destruct (decide (k = Z.to_nat j)) as [->|].
    + rewrite list_lookup_insert_eq by lia. case_decide; [|lia].
      rewrite <- Hx. f_equal. lia.
    + rewrite list_lookup_insert_ne by lia. rewrite Ht2.
      repeat case_decide; (done || lia).
  - f_equal. apply list_eq. intros k.
    rewrite Hu2, lookup_shift_down.
    repeat case_decide; (done || lia).
Qed.

(** Lines 127-131 on a window whose first [win_area - 1] slots ascend. *)
Lemma insert_val_spec win_area val w :
  Z.of_nat (length w) = win_area → 0 < win_area < 2 ^ 63 →
  Sorted Z.le (drop_last w) →
  insert_val win_area val w = Some (insert_slot w val).
Proof.
  intros Hlen Hpos Hs%Sorted_ascending. unfold insert_val, insert_slot.
  rewrite to_size_t_id by lia.
  assert (Z.to_nat (win_area - 1) = (length w - 1)%nat) as Hn by lia.
  destruct (bisect_left_spec w (win_area - 1) val)
    as (pos & Hb & Hle & Hlow & Hhigh); [lia|lia|rewrite Hn; exact Hs|].
  rewrite Hb. simpl.
  destruct (for_down_inv
    (λ j u, length u = length w ∧
            ∀ k : nat, (k < length w)%nat →
                       u !! k = if decide (Z.of_nat k ≤ j)
                                then w !! k else w !! pred k)
    (win_area - 1) (Z.of_nat pos) (λ j u, x ← rd u (j - 1); wr u j x) w)
    as (u & -> & Hu1 & Hu2).
  - lia.
  - split; [done|]. intros k ?. case_decide; [done|lia].
  - intros j t Hj [Ht1 Ht2].
    destruct (lookup_lt_is_Some_2 w (Z.to_nat (j - 1))) as [x Hx]; [lia|].
    rewrite rd_lookup by lia. rewrite Ht2 by lia.
    case_decide; [|lia]. rewrite Hx. simpl.
    rewrite wr_insert by lia. eexists; split; [done|].
    rewrite length_insert. split; [done|]. intros k Hk.
    destruct (decide (k = Z.to_nat j)) as [->|].
    + rewrite list_lookup_insert_eq by lia. case_decide; [lia|].
      rewrite <- Hx. f_equal. lia.
    + rewrite list_lookup_insert_ne by lia. rewrite Ht2 by done.
      repeat case_decide; (done || lia).
  - simpl. rewrite wr_nat by lia. f_equal.
    rewrite (insert_one_at val (drop_last w) pos).
    + apply list_eq. intros k.
      rewrite lookup_insert_at by (rewrite drop_last_length; lia).
      unfold drop_last.
      destruct (decide (k < length w)%nat).
      * destruct (decide (k = pos)) as [->|].
        { rewrite list_lookup_insert_eq by lia.
          case_decide; [lia|done]. }
        rewrite list_lookup_insert_ne by lia. rewrite Hu2 by done.
        repeat case_decide; try lia.
        -- by rewrite lookup_take_lt by lia.
        -- by rewrite lookup_take_lt by lia.
      * rewrite (lookup_ge_None_2 (<[_:=_]> _)) by (rewrite length_insert; lia).
        repeat case_decide; try lia.
        symmetry. apply lookup_ge_None_2. rewrite length_take. lia.
    + rewrite drop_last_length. lia.
    + intros i x ? [? ?]%lookup_take_Some. by eapply Hlow.
    + intros x [? ?]%lookup_take_Some. eapply Hhigh; [|done]. lia.
Qed.

(** ** getp and the reflection rule *)

Lemma to_size_t_index a w b :
  to_size_t (to_size_t a * w + to_size_t b) = to_size_t (a * w + b).
Proof.
  unfold to_size_t.
  rewrite Z.add_mod_idemp_r by lia.
  rewrite <- Z.add_mod_idemp_l by lia.
  rewrite Z.mul_mod_idemp_l by lia.
  rewrite Z.add_mod_idemp_l by lia. done.
Qed.

(** One axis of [getp]: the mirrored coordinate, as an [int]. *)
Lemma getp_axis extent v :
  0 < extent → INT_MIN < v ≤ INT_MAX →
  (if v <? 0 then to_int (- v)
   else if extent <=? to_size_t v
        then to_int (to_size_t (2 * extent - to_size_t v - 2))
        else v) = reflect extent v
  ∧ INT_MIN ≤ reflect extent v ≤ INT_MAX.
Proof.
  unfold INT_MIN, INT_MAX, reflect. intros Hext Hv.
  destruct (v <? 0) eqn:Hneg.
  - apply Z.ltb_lt in Hneg. rewrite to_int_id by (unfold INT_MIN, INT_MAX; lia).
    lia.
  - apply Z.ltb_ge in Hneg. rewrite (to_size_t_id v) by lia.
    destruct (extent <=? v) eqn:Hge; [|lia].
    apply Z.leb_le in Hge. rewrite to_int_to_size_t.
    rewrite to_int_id by (unfold INT_MIN, INT_MAX; lia). lia.
Qed.

Lemma reflect_range extent half v :
  0 ≤ half < extent → - half ≤ v < extent + half →
  0 ≤ reflect extent v < extent.
Proof.
  intros. unfold reflect.
  destruct (v <? 0) eqn:?; [lia|]. destruct (extent <=? v) eqn:?; lia.
Qed.

Lemma half_bounds ksize :
  ksize mod 2 = 1 → 0 < ksize ≤ 15 →
  0 ≤ ksize / 2 ≤ 7 ∧ ksize = 2 * (ksize / 2) + 1.
Proof. intros Hodd Hk. pose proof (Z.div_mod ksize 2). lia. Qed.

(** Inside the padded range every request of [getp] is answered with
    the mirrored sample. *)
Lemma getp_safe src width height ksize r c :
  Z.of_nat (length src) = width * height →
  safe_dims width height ksize →
  - (ksize / 2) ≤ r < height + ksize / 2 →
  - (ksize / 2) ≤ c < width + ksize / 2 →
  getp src width height r c = Some (mirror src width height r c)
  ∧ 0 ≤ getp_index width height r c < width * height.
Proof.
  intros Hlen (Hodd & Hk & Hw & Hh & Hwi & Hhi) Hr Hc.
  destruct (half_bounds ksize) as [Hhalf _]; [done..|].
  pose proof (reflect_range height (ksize / 2) r ltac:(lia) Hr) as Hr'.
  pose proof (reflect_range width (ksize / 2) c ltac:(lia) Hc) as Hc'.
  assert (0 ≤ reflect height r * width + reflect width c < width * height)
    as Hi by nia.
  assert (getp_index width height r c
          = reflect height r * width + reflect width c) as Hidx.
  { unfold getp_index.
    destruct (getp_axis height r) as [-> _];
      [lia|unfold INT_MIN, INT_MAX in *; lia|].
    destruct (getp_axis width c) as [-> _];
      [lia|unfold INT_MIN, INT_MAX in *; lia|].
    rewrite to_size_t_index. apply to_size_t_id.
    unfold INT_MAX in *. nia. }
  split; [|by rewrite Hidx].
  unfold getp, mirror, pixel, sample. rewrite Hidx.
  destruct (lookup_lt_is_Some_2 src
    (Z.to_nat (reflect height r * width + reflect width c))) as [x Hx]; [lia|].
  rewrite rd_lookup by lia. by rewrite Hx.
Qed.

(** ** Arrays filled from the front *)

Lemma filled_length pre buf :
  (length pre ≤ length buf)%nat → length (filled pre buf) = length buf.
Proof. intros. unfold filled. rewrite length_app, length_drop. lia. Qed.

Lemma filled_full pre buf : length pre = length buf → filled pre buf = pre.
Proof.
  intros Hl. unfold filled. rewrite drop_ge by lia. apply app_nil_r.
Qed.

Lemma lookup_filled_lt pre buf (i : nat) :
  (i < length pre)%nat → filled pre buf !! i = pre !! i.
Proof. intros. unfold filled. by rewrite lookup_app_l. Qed.

Lemma wr_filled pre buf v :
  (length pre < length buf)%nat →
  wr (filled pre buf) (Z.of_nat (length pre)) v = Some (filled (pre ++ [v]) buf).
Proof.
  intros Hl. rewrite wr_nat by (rewrite filled_length; lia). f_equal.
  unfold filled.
  destruct (lookup_lt_is_Some_2 buf (length pre)) as [x Hx]; [done|].
  rewrite (drop_S _ x) by done.
  replace (length pre) with (length pre + 0)%nat at 1 by lia.
  rewrite insert_app_r. simpl. rewrite <- app_assoc. simpl.
  rewrite length_app. simpl. by rewrite Nat.add_1_r.
Qed.

Lemma seqZ_snoc m n : 0 ≤ n → seqZ m (n + 1) = seqZ m n ++ [m + n].
Proof. intros. rewrite seqZ_app by lia. done. Qed.

Lemma offsets_length ksize : 0 ≤ ksize → Z.of_nat (length (offsets ksize)) = ksize.
Proof. intros. unfold offsets. rewrite length_seqZ. lia. Qed.

(** ** One column slide *)

Lemma safe_half width height ksize :
  safe_dims width height ksize →
  0 ≤ ksize / 2 ≤ 7 ∧ ksize = 2 * (ksize / 2) + 1.
Proof. intros (? & ? & _). by apply half_bounds. Qed.

Lemma safe_int_half width height ksize :
  safe_dims width height ksize →
  to_int (ksize / 2) = ksize / 2 ∧ to_int (- (ksize / 2)) = - (ksize / 2).
Proof.
  intros [? _]%safe_half.
  split; apply to_int_id; unfold INT_MIN, INT_MAX; lia.
Qed.

Lemma safe_win_area width height ksize :
  safe_dims width height ksize →
  to_size_t (ksize * ksize) = ksize * ksize ∧ 0 < ksize * ksize < 2 ^ 63.
Proof.
  intros (_ & ? & _).
  assert (0 < ksize * ksize ≤ 225) by nia.
  split; [apply to_size_t_id|]; lia.
Qed.

Lemma safe_grid_size width height ksize :
  safe_dims width height ksize →
  0 < width ∧ 0 < height ∧ width * height < 2 ^ 62.
Proof.
  intros Hsafe. pose proof (safe_half _ _ _ Hsafe) as [? _].
  destruct Hsafe as (_ & _ & ? & ? & ? & ?). unfold INT_MAX in *.
  split_and!; [lia..|].
  assert (width * height ≤ (2 ^ 31 - 1) * (2 ^ 31 - 1))
    by (apply Z.mul_le_mono_nonneg; lia).
  lia.
Qed.

Lemma safe_row_coord width height ksize r dr :
  safe_dims width height ksize →
  0 ≤ r < height → - (ksize / 2) ≤ dr ≤ ksize / 2 →
  to_int (to_size_t (r + dr)) = r + dr.
Proof.
  intros Hsafe ? ?. pose proof (safe_half _ _ _ Hsafe).
  destruct Hsafe as (_ & _ & _ & _ & _ & ?).
  rewrite to_int_to_size_t. apply to_int_id. unfold INT_MIN, INT_MAX in *. lia.
Qed.

Section slide.
Context (src : list Z) (width height ksize : Z).
Hypothesis Hsrc : Z.of_nat (length src) = width * height.
Hypothesis Hsafe : safe_dims width height ksize.

Local Abbreviation half := (ksize / 2).

Lemma fetch_column_spec r c :
  0 ≤ r < height → 0 ≤ c < width →
  fetch_column src width height half r c
  = Some (filled (column_values src width height ksize r c) (replicate 15 0)).
Proof.
  intros Hr Hc. pose proof (safe_half _ _ _ Hsafe) as [Hh Hk].
  destruct (safe_int_half _ _ _ Hsafe) as [Hih Hin].
  unfold fetch_column. rewrite Hih, Hin.
  destruct (for_range_inv
    (λ dr a, a = filled ((λ d, mirror src width height (r + d) (c + half))
                           <$> seqZ (- half) (dr + half)) (replicate 15 0))
    (- half) (half + 1)
    (λ dr new_col,
       v ← getp src width height
             (to_int (to_size_t (r + dr))) (to_int (to_size_t (c + half)));
       wr new_col (dr + half) v)
    (replicate 15 0)) as (a & -> & ->).
  - lia.
  - by rewrite Z.add_opp_diag_l.
  - intros dr a Hdr ->.
    rewrite (safe_row_coord width height ksize) by (done || lia).
    assert (to_int (to_size_t (c + half)) = c + half) as ->.
    { destruct Hsafe as (_ & _ & _ & _ & ? & _).
      rewrite to_int_to_size_t. apply to_int_id.
      unfold INT_MIN, INT_MAX in *. lia. }
    destruct (getp_safe src width height ksize (r + dr) (c + half))
      as [-> _]; [done|done|lia|lia|]. cbn [mbind option_bind].
    set (pre := _ <$> seqZ (- half) (dr + half)).
    assert (Z.of_nat (length pre) = dr + half) as Hpre.
    { subst pre. rewrite length_fmap, length_seqZ. lia. }
    rewrite <- Hpre. rewrite wr_filled by (rewrite length_replicate; lia).
    eexists; split; [done|]. f_equal. subst pre.
    replace (dr + 1 + half) with (dr + half + 1) by lia.
    rewrite seqZ_snoc by lia. rewrite fmap_app. simpl.
    do 4 f_equal. lia.
  - do 2 f_equal. unfold column_values, offsets. do 2 f_equal. lia.
Qed.

Lemma insert_column_spec vs junk w :
  Z.of_nat (length vs) = ksize →
  Z.of_nat (length w) = ksize * ksize → Sorted Z.le w →
  insert_column ksize (ksize * ksize) (filled vs junk) w
  = Some (foldl insert_slot w vs).
Proof.
  intros Hvs Hw Hs. pose proof (safe_win_area _ _ _ Hsafe) as [_ Harea].
  unfold insert_column.
  destruct (for_range_inv
    (λ i u, u = foldl insert_slot w (take (Z.to_nat i) vs)
            ∧ length u = length w ∧ Sorted Z.le u)
    0 ksize
    (λ i u, val ← rd (filled vs junk) i; insert_val (ksize * ksize) val u) w)
    as (u & -> & -> & _).
  - lia.
  - done.
  - intros i u Hi (-> & Hlen & Hsu).
    destruct (lookup_lt_is_Some_2 vs (Z.to_nat i)) as [v Hv]; [lia|].
    rewrite rd_lookup by lia.
    rewrite lookup_filled_lt by lia. rewrite Hv. simpl.
    rewrite insert_val_spec; [|lia|done|by apply drop_last_Sorted].
    eexists; split; [done|].
    replace (Z.to_nat (i + 1)) with (S (Z.to_nat i)) by lia.
    rewrite (take_S_r _ _ v) by done. rewrite foldl_snoc.
    split_and!; [done| |by apply insert_slot_Sorted].
    rewrite insert_slot_length; lia.
  - by rewrite firstn_all2 by lia.
Qed.

Lemma column_values_length r c :
  Z.of_nat (length (column_values src width height ksize r c)) = ksize.
Proof.
  destruct Hsafe as (_ & ? & _).
  unfold column_values. rewrite length_fmap. apply offsets_length. lia.
Qed.

(** Lines 110-132 turn an ascending window into [slide_spec]. *)
Lemma slide_window_spec r c w :
  0 ≤ r < height → 0 ≤ c < width →
  Z.of_nat (length w) = ksize * ksize → Sorted Z.le w →
  slide_window src width height ksize half (ksize * ksize) r c w
  = Some (slide_spec w (column_values src width height ksize r c)).
Proof.
  intros Hr Hc Hw Hs. pose proof (safe_win_area _ _ _ Hsafe) as [_ Harea].
  unfold slide_window.
  rewrite remove_first_spec by done. simpl.
  rewrite fetch_column_spec by done. simpl.
  rewrite insert_column_spec;
    [done|apply column_values_length| |by apply shift_down_Sorted].
  by rewrite shift_down_length.
Qed.
End slide.

(** ** Building and sorting a window *)

Lemma cmp_uint16_le a b : cmp_le cmp_uint16 a b ↔ a ≤ b.
Proof.
  unfold cmp_le, cmp_uint16.
  destruct (a <? b) eqn:?, (b <? a) eqn:?; lia.
Qed.

Global Instance cmp_uint16_total : Total (cmp_le cmp_uint16).
Proof. intros a b. rewrite !cmp_uint16_le. lia. Qed.

Lemma Sorted_cmp_uint16 l : Sorted (cmp_le cmp_uint16) l → Sorted Z.le l.
Proof.
  induction 1 as [|x l Hs IH Hhd]; constructor; [done|].
  destruct Hhd; constructor. by apply cmp_uint16_le.
Qed.

Lemma qsort_cmp_uint16 base n :
  Z.of_nat (length base) = n →
  qsort base n cmp_uint16 = Some (full_sort base).
Proof.
  intros Hn. unfold qsort.
  destruct (0 <=? n) eqn:?, (n <=? Z.of_nat (length base)) eqn:?; try lia.
  simpl. f_equal.
  rewrite firstn_all2, drop_ge, app_nil_r by lia.
  apply qsort_unique.
  - apply Sorted_cmp_uint16, Sorted_merge_sort, _.
  - apply merge_sort_Permutation.
Qed.

Lemma neighborhood_length src width height ksize r c :
  0 ≤ ksize →
  Z.of_nat (length (neighborhood src width height ksize r c)) = ksize * ksize.
Proof.
  intros Hk. unfold neighborhood.
  rewrite length_join, <- list_fmap_compose.
  rewrite (sum_list_fmap_same (Z.to_nat ksize)).
  - pose proof (offsets_length ksize Hk). nia.
  - apply Forall_forall. intros dr _. simpl. rewrite length_fmap.
    pose proof (offsets_length ksize Hk). lia.
Qed.

Section build.
Context (src : list Z) (width height ksize : Z).
Hypothesis Hsrc : Z.of_nat (length src) = width * height.
Hypothesis Hsafe : safe_dims width height ksize.

Local Abbreviation half := (ksize / 2).

Lemma build_window_spec r0 w :
  0 ≤ r0 < height → Z.of_nat (length w) = ksize * ksize →
  build_window src width height half (ksize * ksize) r0 w
  = Some (full_sort (neighborhood src width height ksize r0 0)).
Proof.
  intros Hr Hw. pose proof (safe_half _ _ _ Hsafe) as [Hh Hk].
  destruct (safe_int_half _ _ _ Hsafe) as [Hih Hin].
  unfold build_window. rewrite Hih, Hin.
  set (row := λ dr, (λ dc, mirror src width height (r0 + dr) (0 + dc))
                      <$> offsets ksize).
  set (inner := λ dr (wi : list Z * Z), for_range (- half) (half + 1)
    (λ (dc : Z) '(w, idx),
       v ← getp src width height (to_int (to_size_t (r0 + dr)))
             (to_int (0 + dc));
       w' ← wr w idx v; Some (w', idx + 1)) wi).
  assert (∀ dr pre, - half ≤ dr ≤ half →
            Z.of_nat (length pre) = ksize * (dr + half) →
            inner dr (filled pre w, Z.of_nat (length pre))
            = Some (filled (pre ++ row dr) w,
                    Z.of_nat (length (pre ++ row dr)))) as Hinner.
  { intros dr pre Hdr Hpre. unfold inner.
    destruct (for_range_inv
      (λ dc (t : list Z * Z),
         let p := pre ++ ((λ dc, mirror src width height (r0 + dr) (0 + dc))
                            <$> seqZ (- half) (dc + half)) in
         t = (filled p w, Z.of_nat (length p)))
      (- half) (half + 1)
      (λ (dc : Z) '(w, idx),
         v ← getp src width height (to_int (to_size_t (r0 + dr)))
               (to_int (0 + dc));
         w' ← wr w idx v; Some (w', idx + 1))
      (filled pre w, Z.of_nat (length pre))) as (t & -> & ->).
    - lia.
    - rewrite Z.add_opp_diag_l. simpl. by rewrite app_nil_r.
    - intros dc t Hdc ->. cbv zeta.
      rewrite (safe_row_coord width height ksize) by (done || lia).
      rewrite to_int_id by (unfold INT_MIN, INT_MAX; lia).
      destruct (getp_safe src width height ksize (r0 + dr) (0 + dc))
        as [-> _]; [done|done|lia| |].
      { destruct Hsafe as (_ & _ & ? & _). lia. }
      cbn [mbind option_bind].
      set (p := pre ++ _).
      assert (Z.of_nat (length p) = ksize * (dr + half) + (dc + half)) as Hp.
      { subst p. rewrite length_app, length_fmap, length_seqZ. lia. }
      rewrite wr_filled by nia. cbn [mbind option_bind].
      eexists; split; [done|].
      replace (dc + 1 + half) with (dc + half + 1) by lia.
      rewrite seqZ_snoc by lia. rewrite fmap_app. simpl.
      rewrite app_assoc. fold p.
      replace (- half + (dc + half)) with dc by lia.
      f_equal. rewrite (length_app p). simpl. lia.
    - unfold row, offsets.
      by replace (half + 1 + half) with ksize by lia. }
  destruct (for_range_inv
    (λ dr (t : list Z * Z),
       let p := mjoin (row <$> seqZ (- half) (dr + half)) in
       t = (filled p w, Z.of_nat (length p)))
    (- half) (half + 1) inner (w, 0)) as (t & Ht & ->).
  - lia.
  - by rewrite Z.add_opp_diag_l.
  - intros dr t Hdr ->. cbv zeta.
    set (p := mjoin _).
    assert (∀ d, length (row d) = Z.to_nat ksize) as Hrow.
    { intros d. unfold row. rewrite length_fmap.
      pose proof (offsets_length ksize). lia. }
    assert (Z.of_nat (length p) = ksize * (dr + half)) as Hp.
    { subst p. rewrite length_join, <- list_fmap_compose.
      rewrite (sum_list_fmap_same (Z.to_nat ksize)).
      - rewrite length_seqZ. nia.
      - apply Forall_forall. intros d _. apply Hrow. }
    rewrite Hinner by (done || lia).
    eexists; split; [done|].
    replace (dr + 1 + half) with (dr + half + 1) by lia.
    rewrite seqZ_snoc by lia. rewrite fmap_app, join_app. simpl.
    rewrite app_nil_r. fold p.
    by replace (- half + (dr + half)) with dr by lia.
  - rewrite Ht. cbn [mbind option_bind fst].
    replace (half + 1 + half) with ksize by lia.
    change (mjoin (row <$> seqZ (- half) ksize))
      with (neighborhood src width height ksize r0 0).
    pose proof (neighborhood_length src width height ksize r0 0) as Hn.
    rewrite filled_full by lia.
    apply qsort_cmp_uint16. lia.
Qed.
End build.

(** ** The scan *)

Lemma slide_from_length src width height ksize r w cs :
  length (slide_from src width height ksize r w cs) = length cs.
Proof.
  revert w. induction cs as [|c cs IH]; intros w; simpl; [done|].
  by rewrite IH.
Qed.

Lemma row_windows_length src width height ksize r :
  0 < width →
  Z.of_nat (length (row_windows src width height ksize r)) = width.
Proof.
  intros. unfold row_windows. simpl.
  rewrite slide_from_length, length_seqZ. lia.
Qed.

(** The index read as the median is the middle of [ksize * ksize]
    slots. *)
Lemma middle_index ksize :
  ksize mod 2 = 1 → 0 < ksize ≤ 15 →
  0 ≤ ksize / 2 * ksize + ksize / 2 < ksize * ksize ∧
  ksize / 2 * ksize + ksize / 2 = ksize * ksize / 2 ∧
  Z.to_nat (ksize / 2 * ksize + ksize / 2) = (Z.to_nat (ksize * ksize) / 2)%nat.
Proof.
  intros Hodd Hk. destruct (half_bounds ksize) as [Hh Hk2]; [done..|].
  assert (ksize / 2 * ksize + ksize / 2 = ksize * ksize / 2) as Hm
    by (apply (Z.div_unique _ _ _ 1); [lia|nia]).
  split; [nia|]. split; [done|].
  apply Nat2Z.inj. rewrite Nat2Z.inj_div, !Z2Nat.id by nia. done.
Qed.

Section scan.
Context (src dst0 : list Z) (width height ksize : Z).
Hypothesis Hsrc : Z.of_nat (length src) = width * height.
Hypothesis Hdst : Z.of_nat (length dst0) = width * height.
Hypothesis Hsafe : safe_dims width height ksize.

Local Abbreviation half := (ksize / 2).
Local Abbreviation win_area := (ksize * ksize).

Lemma write_median_spec s :
  Z.of_nat (length (win s)) = win_area → written ksize dst0 s →
  Z.of_nat (length (trace s)) < width * height →
  write_median ksize half (Z.of_nat (length (trace s))) s
  = Some (State (win s)
                (filled (middle ksize <$> (trace s ++ [win s])) dst0)
                (trace s ++ [win s])).
Proof.
  intros Hw Hwr Hlen. unfold write_median.
  destruct (middle_index ksize) as [Hm _];
    [by destruct Hsafe as (? & ? & _)..|].
  pose proof (safe_win_area _ _ _ Hsafe) as [_ Harea].
  rewrite to_size_t_id by lia.
  destruct (lookup_lt_is_Some_2 (win s) (Z.to_nat (half * ksize + half)))
    as [m Hmid]; [lia|].
  rewrite rd_lookup, Hmid by lia. cbn [mbind option_bind].
  rewrite Hwr.
  replace (length (trace s)) with (length (middle ksize <$> trace s)) at 1
    by apply length_fmap.
  rewrite wr_filled by (rewrite length_fmap; lia). cbn [mbind option_bind].
  rewrite fmap_app. simpl. do 4 f_equal.
  unfold middle. by rewrite (nth_lookup_Some _ _ _ m).
Qed.

(** One iteration of the column loop, lines 109-136. *)
Lemma slide_column_spec r c s :
  0 ≤ r < height → 0 ≤ c < width →
  Z.of_nat (length (win s)) = win_area → Sorted Z.le (win s) →
  written ksize dst0 s → Z.of_nat (length (trace s)) = r * width + c →
  let w' := slide_spec (win s)
              (column_values src width height ksize r c) in
  slide_column src width height ksize half win_area r c s
  = Some (State w' (filled (middle ksize <$> (trace s ++ [w'])) dst0)
                (trace s ++ [w'])).
Proof.
  intros Hr Hc Hw Hs Hwr Hlen w'. unfold slide_column.
  pose proof (safe_win_area _ _ _ Hsafe) as [_ Harea].
  rewrite (slide_window_spec src width height ksize) by done.
  cbn [mbind option_bind]. fold w'.
  assert (0 ≤ r * width + c < width * height) as Hidx by nia.
  pose proof (safe_grid_size _ _ _ Hsafe) as (_ & _ & Hsz).
  rewrite to_size_t_id by lia.
  rewrite <- Hlen.
  apply (write_median_spec (State w' (dst s) (trace s))); simpl.
  - subst w'. rewrite slide_spec_length; lia.
  - done.
  - lia.
Qed.

Lemma seqZ_head m n : 0 < n → seqZ m n = m :: seqZ (m + 1) (n - 1).
Proof. intros. by rewrite seqZ_cons by lia. Qed.

(** The body of the row loop, lines 104-151. *)
Lemma filter_row_spec r s :
  0 ≤ r < height →
  win s = full_sort (neighborhood src width height ksize r 0) →
  written ksize dst0 s → Z.of_nat (length (trace s)) = r * width →
  ∃ s', filter_row src width height ksize half win_area r s = Some s'
        ∧ trace s' = trace s ++ row_windows src width height ksize r
        ∧ written ksize dst0 s'
        ∧ Z.of_nat (length (win s')) = win_area
        ∧ (r + 1 < height →
           win s' = full_sort (neighborhood src width height ksize (r + 1) 0)).
Proof.
  intros Hr Hwin Hwr Hlen.
  pose proof (safe_half _ _ _ Hsafe) as [Hh Hk].
  pose proof (safe_win_area _ _ _ Hsafe) as [_ Harea].
  assert (0 < width) as Hwpos by (destruct Hsafe as (_ & _ & ? & _); lia).
  assert (Z.of_nat (length (win s)) = win_area) as Hwl.
  { rewrite Hwin, full_sort_length. apply neighborhood_length. lia. }
  unfold filter_row.
  assert (0 ≤ r * width < width * height) as Hidx by nia.
  pose proof (safe_grid_size _ _ _ Hsafe) as (_ & _ & Hsz).
  rewrite to_size_t_id by lia.
  rewrite <- Hlen, write_median_spec by (done || lia).
  cbn [mbind option_bind].
  set (w0 := win s) in *.
  set (rest := slide_from src width height ksize r w0 (seqZ 1 (width - 1))).
  destruct (for_range_inv
    (λ c t, Z.of_nat (length (win t)) = win_area ∧ Sorted Z.le (win t)
            ∧ written ksize dst0 t
            ∧ Z.of_nat (length (trace t)) = r * width + c
            ∧ trace t ++ slide_from src width height ksize r (win t)
                            (seqZ c (width - c))
              = (trace s ++ [w0]) ++ rest)
    1 width (slide_column src width height ksize half win_area r)
    (State w0 (filled (middle ksize <$> (trace s ++ [w0])) dst0)
           (trace s ++ [w0])))
    as (s2 & -> & Hl2 & Hs2 & Hwr2 & Hn2 & Ht2).
  - lia.
  - simpl. split_and!; [done| |done| |done].
    + subst w0. rewrite Hwin. apply full_sort_Sorted.
    + rewrite length_app. simpl. lia.
  - intros c t Hc (Hl & Hs & Hw & Hn & Ht).
    rewrite slide_column_spec by (done || lia). cbv zeta.
    eexists; split; [done|]. simpl.
    split_and!.
    + rewrite slide_spec_length; lia.
    + by apply slide_spec_Sorted.
    + done.
    + rewrite length_app. simpl. lia.
    + rewrite <- Ht. rewrite (seqZ_head c) by lia. simpl.
      rewrite <- app_assoc. simpl. do 4 f_equal. lia.
  - cbn [mbind option_bind].
    rewrite Z.sub_diag in Ht2. simpl in Ht2. rewrite app_nil_r in Ht2.
    assert (trace s2 = trace s ++ row_windows src width height ksize r) as Htr.
    { rewrite Ht2. unfold row_windows. rewrite <- app_assoc. simpl.
      by rewrite <- Hwin. }
    destruct (r + 1 <? height) eqn:Hnext.
    + apply Z.ltb_lt in Hnext.
      rewrite (build_window_spec src width height ksize) by (done || lia).
      cbn [mbind option_bind]. eexists; split; [done|]. simpl.
      split_and!; [done|done| |done].
      rewrite full_sort_length. apply neighborhood_length. lia.
    + apply Z.ltb_ge in Hnext. eexists; split; [done|].
      split_and!; [done|done|done|lia].
Qed.

(** The run of the filter, when the allocation succeeds: the trace is
    [all_windows] and the output is the list of their middle elements. *)
Lemma median_filter_run_spec malloc buf :
  malloc (to_size_t (to_size_t win_area * 2)) = Some buf →
  Z.of_nat (length buf) = win_area →
  ∃ w, median_filter_run malloc src dst0 width height ksize
       = Some (State w
                 (middle ksize <$> all_windows src width height ksize)
                 (all_windows src width height ksize)).
Proof.
  intros Hmalloc Hbuf.
  pose proof (safe_half _ _ _ Hsafe) as [Hh Hk].
  pose proof (safe_win_area _ _ _ Hsafe) as [Harea _].
  assert (0 < width ∧ 0 < height) as [Hwpos Hhpos]
    by (destruct Hsafe as (_ & _ & ? & ? & _); lia).
  unfold median_filter_run.
  destruct Hsafe as (Hodd & _). rewrite Hodd. simpl.
  rewrite Hmalloc. rewrite Harea.
  rewrite (build_window_spec src width height ksize) by (done || lia).
  cbn [mbind option_bind].
  destruct (for_range_inv
    (λ r t, written ksize dst0 t
            ∧ trace t = mjoin (row_windows src width height ksize
                                 <$> seqZ 0 r)
            ∧ Z.of_nat (length (trace t)) = r * width
            ∧ Z.of_nat (length (win t)) = win_area
            ∧ (r < height →
               win t = full_sort (neighborhood src width height ksize r 0)))
    0 height (filter_row src width height ksize half win_area)
    (State (full_sort (neighborhood src width height ksize 0 0)) dst0 []))
    as (s & -> & Hwr & Htr & Hn & _).
  - lia.
  - simpl. split_and!; [done|done|lia| |done].
    rewrite full_sort_length. apply neighborhood_length. lia.
  - intros r t Hr (Hwr & Htr & Hn & Hl & Hw).
    destruct (filter_row_spec r t) as (t' & -> & Htr' & Hwr' & Hl' & Hw');
      [done|by apply Hw; lia|done|done|].
    eexists; split; [done|].
    split_and!; [done| | |done|done].
    + rewrite Htr', Htr. rewrite seqZ_snoc by lia.
      rewrite fmap_app, join_app. simpl. by rewrite app_nil_r.
    + rewrite Htr', length_app.
      pose proof (row_windows_length src width height ksize r Hwpos). lia.
  - destruct s as [w d t]. simpl in *. exists w. do 2 f_equal; [|done].
    rewrite Hwr, Htr. fold (all_windows src width height ksize).
    apply filled_full. rewrite length_fmap.
    unfold all_windows. rewrite <- Htr. lia.
Qed.
End scan.

(** ** Reading the windows of a run by coordinates *)

Lemma all_windows_lookup src width height ksize r c x :
  0 ≤ r < height → 0 ≤ c < width →
  row_windows src width height ksize r !! Z.to_nat c = Some x →
  all_windows src width height ksize !! Z.to_nat (r * width + c) = Some x.
Proof.
  intros Hr Hc Hx. unfold all_windows.
  replace (Z.to_nat (r * width + c))
    with (Z.to_nat r * Z.to_nat width + Z.to_nat c)%nat
    by (rewrite Z2Nat.inj_add, Z2Nat.inj_mul by nia; done).
  apply join_lookup_Some_same_length'.
  - apply Forall_forall. intros l (r' & -> & _)%list_elem_of_fmap.
    pose proof (row_windows_length src width height ksize r' ltac:(lia)). lia.
  - lia.
  - eexists; split; [|done].
    rewrite list_lookup_fmap, lookup_seqZ_lt by lia. simpl.
    do 2 f_equal. lia.
Qed.

Lemma all_windows_length src width height ksize :
  0 < width → 0 ≤ height →
  Z.of_nat (length (all_windows src width height ksize)) = width * height.
Proof.
  intros Hw Hh. unfold all_windows.
  rewrite length_join, <- list_fmap_compose.
  rewrite (sum_list_fmap_same (Z.to_nat width)).
  - rewrite length_seqZ. nia.
  - apply Forall_forall. intros r _. unfold compose.
    pose proof (row_windows_length src width height ksize r Hw). lia.
Qed.

Lemma slide_from_Forall (P : list Z → Prop) src width height ksize r w cs :
  P w → (∀ a vs, P a → P (slide_spec a vs)) →
  Forall P (slide_from src width height ksize r w cs).
Proof.
  intros Hw Hstep. revert w Hw.
  induction cs as [|c cs IH]; intros w Hw; simpl; constructor; auto.
Qed.

Lemma all_windows_Forall (P : list Z → Prop) src width height ksize :
  (∀ r, P (full_sort (neighborhood src width height ksize r 0))) →
  (∀ a vs, P a → P (slide_spec a vs)) →
  Forall P (all_windows src width height ksize).
Proof.
  intros H0 Hstep. unfold all_windows. apply Forall_join, Forall_fmap.
  apply Forall_forall. intros r _. simpl. unfold row_windows.
  constructor; [done|]. by apply slide_from_Forall.
Qed.

(** [write_median] without the ghost invariant. *)
Lemma write_median_insert ksize idx s :
  ksize mod 2 = 1 → 0 < ksize ≤ 15 →
  Z.of_nat (length (win s)) = ksize * ksize →
  0 ≤ idx < Z.of_nat (length (dst s)) →
  write_median ksize (ksize / 2) idx s
  = Some (State (win s) (<[Z.to_nat idx := middle ksize (win s)]> (dst s))
                (trace s ++ [win s])).
Proof.
  intros Hodd Hk Hw Hidx. unfold write_median.
  destruct (half_bounds ksize) as [Hh Hk2]; [done..|].
  assert (0 ≤ ksize / 2 * ksize + ksize / 2 < ksize * ksize) as Hm by nia.
  assert (ksize * ksize ≤ 225) by nia.
  rewrite to_size_t_id by lia.
  destruct (lookup_lt_is_Some_2 (win s)
              (Z.to_nat (ksize / 2 * ksize + ksize / 2))) as [m Hmid]; [lia|].
  rewrite rd_lookup, Hmid by lia. cbn [mbind option_bind].
  rewrite wr_insert by done. cbn [mbind option_bind].
  unfold middle. by rewrite (nth_lookup_Some _ _ _ m).
Qed.

(** With a kernel of size 1 every window is the pixel itself. *)
Lemma slide_spec_one x v : slide_spec [x] [v] = [v].
Proof. reflexivity. Qed.

Lemma slide_from_one src width height r x cs :
  slide_from src width height 1 r [x] cs
  = (λ c, [mirror src width height (r + 0) (c + 0)]) <$> cs.
Proof.
  revert x. induction cs as [|c cs IH]; intros x; simpl; [done|].
  change (column_values src width height 1 r c)
    with [mirror src width height (r + 0) (c + 0)].
  rewrite slide_spec_one. by rewrite IH.
Qed.

Lemma row_windows_one src width height r :
  0 < width →
  row_windows src width height 1 r
  = (λ c, [mirror src width height r c]) <$> seqZ 0 width.
Proof.
  intros Hw. unfold row_windows.
  change (full_sort (neighborhood src width height 1 r 0))
    with [mirror src width height (r + 0) (0 + 0)].
  rewrite slide_from_one. rewrite (seqZ_cons 0 width) by lia. simpl.
  rewrite !Z.add_0_r. f_equal.
  replace (Z.pred width) with (width - 1) by lia.
  apply list_fmap_ext. intros _ c _. by rewrite !Z.add_0_r.
Qed.

(** * The claims *)

(** Concrete data used by the examples below. *)
Lemma example_safe : safe_dims 5 4 3.
Proof. unfold safe_dims, INT_MAX. vm_compute. intuition discriminate. Qed.

(** ** C1: interior pixels against the full-sort oracle *)

(** C1, evaluated on the grid of the example program with [ksize = 3].
    The pixel [(1, 1)] is interior (its 3 by 3 block needs no
    reflection); the full-sort median of the block is 13, the filter
    writes 12 at index [1 * 5 + 1]. *)
Theorem C1_interior_pixel_differs :
  block example_src 5 3 1 1 = neighborhood example_src 5 4 3 1 1
  ∧ median_by_sort (block example_src 5 3 1 1) = 13
  ∧ ∃ out, median_filter_uint16 malloc_ok example_src (replicate 20 0) 5 4 3
           = Some out
           ∧ out !! 6%nat = Some 12.
Proof.
  split_and!; [reflexivity|reflexivity|].
  eexists. split; [vm_compute; reflexivity|reflexivity].
Qed.

(** ** C2: the column slide *)

(** C2, evaluated on the example grid with [ksize = 3].  Sliding the
    ascending window of [(1, 0)] to column 1 yields a window that is not
    a rearrangement of "previous window minus its 3 smallest values plus
    the 3 new values": the removal at lines 114-116 is run once, not
    [ksize] times, and the value 10 is still in the window. *)
Lemma C2_counterexample :
  let w := full_sort (neighborhood example_src 5 4 3 1 0) in
  let vs := column_values example_src 5 4 3 1 1 in
  ∃ w', slide_window example_src 5 4 3 (3 / 2) (to_size_t (3 * 3)) 1 1 w
        = Some w'
        ∧ ¬ w' ≡ₚ slide_claimed 3 w vs.
Proof.
  eexists. split; [vm_compute; reflexivity|].
  intros Hp. vm_compute in Hp.
  assert (In 10 [11; 12; 12; 13; 14; 20; 22; 22; 23]) as Hin
    by (apply (Permutation_in _ Hp); simpl; tauto).
  simpl in Hin. intuition discriminate.
Qed.

(** What lines 109-135 do instead, under the safety preconditions: ONE
    removal (the tail moves down one slot, the last slot keeps its old
    content), then [ksize] insertions, each placing the value by leftmost
    search among all slots but the last and overwriting the last slot;
    the element at index [half * ksize + half] is then written out. *)
Lemma slide_column_effect src width height ksize r c s :
  Z.of_nat (length src) = width * height →
  safe_dims width height ksize →
  0 ≤ r < height → 1 ≤ c < width →
  Z.of_nat (length (win s)) = ksize * ksize → Sorted Z.le (win s) →
  Z.of_nat (length (dst s)) = width * height →
  let vs := column_values src width height ksize r c in
  let w' := foldl insert_slot (shift_down (win s)) vs in
  slide_column src width height ksize (ksize / 2) (to_size_t (ksize * ksize))
    r c s
  = Some (State w' (<[Z.to_nat (r * width + c) := middle ksize w']> (dst s))
                (trace s ++ [w']))
  ∧ drop_last (shift_down (win s)) = tail (win s)
  ∧ (∀ a v, insert_slot a v ≡ₚ v :: drop_last a)
  ∧ Sorted Z.le w' ∧ Z.of_nat (length w') = ksize * ksize.
Proof.
  intros Hsrc Hsafe Hr Hc Hw Hs Hd vs w'.
  pose proof (safe_win_area _ _ _ Hsafe) as [Harea Hpos].
  pose proof (safe_grid_size _ _ _ Hsafe) as (_ & _ & Hsz).
  assert (Z.of_nat (length w') = ksize * ksize) as Hw'.
  { subst w'. fold (slide_spec (win s) vs). rewrite slide_spec_length; lia. }
  split_and!.
  - unfold slide_column. rewrite Harea.
    rewrite (slide_window_spec src width height ksize) by (done || lia).
    cbn [mbind option_bind]. fold vs. unfold slide_spec. fold w'.
    assert (0 ≤ r * width + c < width * height) by nia.
    rewrite to_size_t_id by lia.
    destruct Hsafe as (? & ? & _).
    by rewrite write_median_insert by (done || simpl; lia).
  - apply drop_last_shift_down.
  - intros a v. apply insert_one_Permutation.
  - subst w'. by apply (slide_spec_Sorted (win s) vs).
  - done.
Qed.

Lemma slide_column_effect_example :
  slide_column example_src 5 4 3 (3 / 2) (to_size_t (3 * 3)) 1 1
    (State [9; 10; 11; 11; 12; 12; 20; 22; 22] (replicate 20 0) [])
  = Some (State [10; 11; 11; 12; 12; 13; 14; 20; 23]
                (<[6%nat := 12]> (replicate 20 0))
                [[10; 11; 11; 12; 12; 13; 14; 20; 23]]).
Proof.
  apply (slide_column_effect example_src 5 4 3 1 1
           (State [9; 10; 11; 11; 12; 12; 20; 22; 22] (replicate 20 0) []));
    [reflexivity | exact example_safe | lia | lia | reflexivity
    | repeat constructor; lia | reflexivity].
Defined.

(** ** C3: the first column of every row *)

(** C3.  For a grid with [width > 0] and [height > 0] and an odd [ksize]
    within the safety preconditions, the output at column 0 of every row
    [r] is the element at index [half * ksize + half] of the ascending
    window built for [(r, 0)]; that index is the middle index
    [ksize * ksize / 2], so the value is the full-sort median of the
    mirror-reflected neighbourhood centred at [(r, 0)]. *)
Theorem C3_first_column malloc buf src dst0 width height ksize :
  Z.of_nat (length src) = width * height →
  Z.of_nat (length dst0) = width * height →
  safe_dims width height ksize →
  malloc (to_size_t (to_size_t (ksize * ksize) * 2)) = Some buf →
  Z.of_nat (length buf) = ksize * ksize →
  ∃ out,
    median_filter_uint16 malloc src dst0 width height ksize = Some out ∧
    ∀ r, 0 ≤ r < height →
      let nb := neighborhood src width height ksize r 0 in
      out !! Z.to_nat (r * width)
      = Some (nth (Z.to_nat (ksize / 2 * ksize + ksize / 2)) (full_sort nb) 0)
      ∧ ksize / 2 * ksize + ksize / 2 = ksize * ksize / 2
      ∧ out !! Z.to_nat (r * width) = Some (median_by_sort nb).
Proof.
  intros Hsrc Hdst Hsafe Hmalloc Hbuf.
  destruct (median_filter_run_spec src dst0 width height ksize
              Hsrc Hdst Hsafe malloc buf Hmalloc Hbuf) as [w Hrun].
  unfold median_filter_uint16. rewrite Hrun.
  cbn [fmap option_fmap option_map dst].
  eexists; split; [done|]. cbv zeta. intros r Hr.
  set (nb := neighborhood src width height ksize r 0).
  pose proof (safe_grid_size _ _ _ Hsafe) as (Hwpos & _ & _).
  destruct (middle_index ksize) as (_ & Hmid & Hnat);
    [by destruct Hsafe as (? & ? & _)..|].
  assert (out_r : (middle ksize <$> all_windows src width height ksize)
                    !! Z.to_nat (r * width)
                  = Some (middle ksize (full_sort nb))).
  { rewrite list_lookup_fmap.
    replace (r * width) with (r * width + 0) by lia.
    rewrite (all_windows_lookup _ _ _ _ _ _ (full_sort nb)); [done|done|lia|].
    done. }
  split_and!; [done|done|].
  rewrite out_r. f_equal. unfold middle, median_by_sort.
  rewrite Hnat. do 2 f_equal.
  pose proof (neighborhood_length src width height ksize r 0) as Hn.
  fold nb in Hn. destruct Hsafe as (_ & ? & _).
  rewrite <- Hn by lia. by rewrite Nat2Z.id.
Qed.

Lemma C3_first_column_witness :
  ∃ out,
    median_filter_uint16 malloc_ok example_src (replicate 20 0) 5 4 3
    = Some out ∧
    ∀ r, 0 ≤ r < 4 →
      let nb := neighborhood example_src 5 4 3 r 0 in
      out !! Z.to_nat (r * 5)
      = Some (nth (Z.to_nat (3 / 2 * 3 + 3 / 2)) (full_sort nb) 0)
      ∧ 3 / 2 * 3 + 3 / 2 = 3 * 3 / 2
      ∧ out !! Z.to_nat (r * 5) = Some (median_by_sort nb).
Proof.
  apply (C3_first_column malloc_ok (replicate 9 0) example_src
           (replicate 20 0) 5 4 3);
    [reflexivity | reflexivity | exact example_safe | reflexivity
    | reflexivity].
Defined.

(** ** C4: the Boundary Sampler *)

(** C4 as stated fails where one reflection does not reach the grid.
    On the 5 by 4 example grid the request [(1, 9)] is reflected to
    column [2 * 5 - 9 - 2 = -1], which is no column of the grid; [getp]
    does not notice and returns the sample at index [1 * 5 - 1], the last
    pixel of row 0. *)
Lemma C4_counterexample :
  reflect 4 1 = 1 ∧ reflect 5 9 = -1
  ∧ grid_sample example_src 5 4 (reflect 4 1) (reflect 5 9) = None
  ∧ getp example_src 5 4 1 9 = Some 17
  ∧ getp example_src 5 4 1 9
    ≠ grid_sample example_src 5 4 (reflect 4 1) (reflect 5 9).
Proof. split_and!; try reflexivity. discriminate. Qed.

(** C4, amended.  For a grid of [width * height] samples (fewer than
    [2 ^ 64]) and a requested coordinate pair [(r, c)] of the C type
    [int] (other than [INT_MIN]) that one reflection brings back into the
    grid, that is [-height < r < 2 * height - 1] and
    [-width < c < 2 * width - 1], [getp] returns the grid sample at the
    coordinates obtained by reflecting each axis independently: [v < 0]
    maps to [-v], [v ≥ extent] maps to [2 * extent - v - 2], any other
    coordinate is unchanged; and that sample exists. *)
Theorem C4_getp_reflection_within_reach src width height r c :
  Z.of_nat (length src) = width * height → width * height < 2 ^ 64 →
  INT_MIN < r ≤ INT_MAX → INT_MIN < c ≤ INT_MAX →
  - height < r < 2 * height - 1 → - width < c < 2 * width - 1 →
  getp src width height r c
  = grid_sample src width height (reflect height r) (reflect width c)
  ∧ is_Some (getp src width height r c)
  ∧ reflect height r
    = (if r <? 0 then - r else if height <=? r then 2 * height - r - 2 else r)
  ∧ reflect width c
    = (if c <? 0 then - c else if width <=? c then 2 * width - c - 2 else c).
Proof.
  intros Hlen Hsz Hr Hc Hrr Hcr.
  assert (0 ≤ reflect height r < height) as Hr'.
  { unfold reflect. destruct (r <? 0) eqn:?; [lia|].
    destruct (height <=? r) eqn:?; lia. }
  assert (0 ≤ reflect width c < width) as Hc'.
  { unfold reflect. destruct (c <? 0) eqn:?; [lia|].
    destruct (width <=? c) eqn:?; lia. }
  assert (getp src width height r c
          = rd src (reflect height r * width + reflect width c)) as Hg.
  { unfold getp, getp_index.
    destruct (getp_axis height r) as [-> _]; [lia|done|].
    destruct (getp_axis width c) as [-> _]; [lia|done|].
    rewrite to_size_t_index. rewrite to_size_t_id; [done|]. nia. }
  split; [|split; [|done]].
  - rewrite Hg. unfold grid_sample.
    destruct (0 <=? reflect height r) eqn:?; [|lia].
    destruct (reflect height r <? height) eqn:?; [|lia].
    destruct (0 <=? reflect width c) eqn:?; [|lia].
    destruct (reflect width c <? width) eqn:?; [|lia]. done.
  - rewrite Hg. rewrite rd_lookup by nia.
    apply lookup_lt_is_Some_2. nia.
Qed.

(** At the corner of the example grid the request [(-1, 5)] is answered
    with the sample at [(1, 3)]. *)
Lemma C4_getp_reflection_within_reach_witness :
  getp example_src 5 4 (-1) 5 = grid_sample example_src 5 4 1 3.
Proof.
  apply (C4_getp_reflection_within_reach example_src 5 4 (-1) 5);
    unfold INT_MIN, INT_MAX; simpl; lia.
Defined.

(** ** C5: the window stays ascending *)

(** C5.  Throughout one invocation with an odd [ksize] (within the
    safety preconditions), the window holds [ksize * ksize] values in
    ascending order at every point where a median is read: after the
    initial sort, after every column slide, and after every per-row
    rebuild.  The ghost trace records the window at each of the
    [width * height] reads, and the output is what was read there. *)
Theorem C5_window_ascending malloc buf src dst0 width height ksize :
  Z.of_nat (length src) = width * height →
  Z.of_nat (length dst0) = width * height →
  safe_dims width height ksize →
  malloc (to_size_t (to_size_t (ksize * ksize) * 2)) = Some buf →
  Z.of_nat (length buf) = ksize * ksize →
  ∃ s,
    median_filter_run malloc src dst0 width height ksize = Some s
    ∧ dst s = middle ksize <$> trace s
    ∧ Z.of_nat (length (trace s)) = width * height
    ∧ Forall (λ w, Sorted Z.le w ∧ Z.of_nat (length w) = ksize * ksize)
             (trace s).
Proof.
  intros Hsrc Hdst Hsafe Hmalloc Hbuf.
  destruct (median_filter_run_spec src dst0 width height ksize
              Hsrc Hdst Hsafe malloc buf Hmalloc Hbuf) as [w Hrun].
  pose proof (safe_grid_size _ _ _ Hsafe) as (Hwpos & Hhpos & _).
  pose proof (safe_win_area _ _ _ Hsafe) as [_ Harea].
  eexists; split; [done|]. simpl. split_and!; [done| |].
  - apply all_windows_length; lia.
  - apply all_windows_Forall.
    + intros r. split; [apply full_sort_Sorted|].
      rewrite full_sort_length. apply neighborhood_length.
      destruct Hsafe as (_ & ? & _). lia.
    + intros a vs [Ha Hl]. split; [by apply slide_spec_Sorted|].
      rewrite slide_spec_length; lia.
Qed.

Lemma C5_window_ascending_witness :
  ∃ s,
    median_filter_run malloc_ok example_src (replicate 20 0) 5 4 3 = Some s
    ∧ dst s = middle 3 <$> trace s
    ∧ Z.of_nat (length (trace s)) = 5 * 4
    ∧ Forall (λ w, Sorted Z.le w ∧ Z.of_nat (length w) = 3 * 3) (trace s).
Proof.
  apply (C5_window_ascending malloc_ok (replicate 9 0) example_src
           (replicate 20 0) 5 4 3);
    [reflexivity | reflexivity | exact example_safe | reflexivity
    | reflexivity].
Defined.

(** ** C6: even kernel sizes *)

(** C6.  For an even [ksize] the filter copies the input grid to the
    output grid and returns: the output equals the input, and no median
    is ever read. *)
Theorem C6_even_ksize_copies malloc src dst0 width height ksize :
  ksize mod 2 = 0 →
  Z.of_nat (length src) = width * height →
  Z.of_nat (length dst0) = width * height →
  width * height * 2 < 2 ^ 64 →
  median_filter_uint16 malloc src dst0 width height ksize = Some src
  ∧ trace <$> median_filter_run malloc src dst0 width height ksize = Some [].
Proof.
  intros Heven Hsrc Hdst Hsz.
  unfold median_filter_uint16, median_filter_run. rewrite Heven. simpl.
  rewrite (to_size_t_id (width * height)) by lia.
  rewrite to_size_t_id by lia.
  unfold memcpy. rewrite Z.div_mul by lia.
  destruct (width * height <=? Z.of_nat (length src)) eqn:?; [|lia].
  destruct (width * height <=? Z.of_nat (length dst0)) eqn:?; [|lia].
  simpl. rewrite firstn_all2, drop_ge, app_nil_r by lia. done.
Qed.

Lemma C6_even_ksize_copies_witness :
  median_filter_uint16 malloc_ok example_src (replicate 20 0) 5 4 2
  = Some example_src.
Proof.
  apply (C6_even_ksize_copies malloc_ok example_src (replicate 20 0) 5 4 2);
    [reflexivity | reflexivity | reflexivity | simpl; lia].
Defined.

(** ** C7: kernel size 1 *)

(** Extents beyond the type [int].  The column loop casts [c + half] to
    [int]; at column [2 ^ 31] the cast yields [INT_MIN], whose mirror
    image is no column of the grid. *)
Lemma for_loop_fails {St : Type} n i (body : Z → St → option St) s j :
  i ≤ j < i + Z.of_nat n → (∀ t, body j t = None) →
  for_loop n i body s = None.
Proof.
  intros Hj Hfail. revert i s Hj.
  induction n as [|n IH]; intros i s Hj; [lia|]. simpl.
  destruct (decide (j = i)) as [->|]; [by rewrite Hfail|].
  destruct (body i s) as [t|]; [|done]. simpl. apply IH. lia.
Qed.

Lemma wide_column_index width height :
  0 < height →
  getp_index width height (to_int (to_size_t (0 + 0)))
    (to_int (to_size_t (2 ^ 31 + 1 / 2)))
  = 2 ^ 64 - 2 ^ 31.
Proof.
  intros Hh. unfold getp_index.
  change (to_int (to_size_t (0 + 0))) with 0.
  change (to_int (to_size_t (2 ^ 31 + 1 / 2))) with (- 2 ^ 31).
  change (0 <? 0) with false. change (to_size_t 0) with 0.
  destruct (height <=? 0) eqn:?; [lia|].
  change (- 2 ^ 31 <? 0) with true.
  change (to_int (- - 2 ^ 31)) with (- 2 ^ 31).
  change (to_size_t (- 2 ^ 31)) with (2 ^ 64 - 2 ^ 31).
  rewrite Z.mul_0_l, Z.add_0_l. reflexivity.
Qed.

Lemma wide_grid_run_fails malloc buf src dst0 width height :
  2 ^ 31 < width → 0 < height →
  Z.of_nat (length src) < 2 ^ 64 - 2 ^ 31 →
  malloc (to_size_t (to_size_t (1 * 1) * 2)) = Some buf →
  median_filter_run malloc src dst0 width height 1 = None.
Proof.
  intros Hw Hh Hlen Hmalloc.
  assert (fetch_column src width height (1 / 2) 0 (2 ^ 31) = None) as Hfetch.
  { unfold fetch_column.
    change (to_int (- to_int (1 / 2))) with 0.
    change (to_int (1 / 2) + 1) with 1.
    unfold for_range. change (Z.to_nat (1 - 0)) with 1%nat.
    cbn [for_loop]. unfold getp. rewrite wide_column_index by done.
    unfold rd. destruct (0 <=? 2 ^ 64 - 2 ^ 31) eqn:?; [|done].
    rewrite lookup_ge_None_2 by lia. done. }
  assert (∀ t, slide_column src width height 1 (1 / 2)
                 (to_size_t (1 * 1)) 0 (2 ^ 31) t = None) as Hslide.
  { intros t. unfold slide_column, slide_window.
    destruct (remove_first _ _) as [w1|]; [|done].
    cbn [mbind option_bind]. by rewrite Hfetch. }
  assert (∀ t, filter_row src width height 1 (1 / 2)
                 (to_size_t (1 * 1)) 0 t = None) as Hrow.
  { intros t. unfold filter_row.
    destruct (write_median _ _ _ t) as [s1|]; [|done].
    cbn [mbind option_bind]. unfold for_range.
    rewrite (for_loop_fails _ _ _ _ (2 ^ 31)); [done| |done]. lia. }
  unfold median_filter_run.
  change (1 mod 2 =? 0) with false. cbv iota. rewrite Hmalloc.
  destruct (build_window _ _ _ _ _ _ _) as [w0|]; [|done].
  cbn [mbind option_bind]. unfold for_range.
  apply (for_loop_fails _ _ _ _ 0); [lia|done].
Qed.

(** C7 as stated fails for a width beyond the type [int].  On a 1-row
    grid of [2 ^ 31 + 1] columns the filter with [ksize = 1] reads out of
    bounds at column [2 ^ 31] and so does not produce the input grid. *)
Lemma C7_counterexample :
  let width := 2 ^ 31 + 1 in
  let src := replicate (Z.to_nat width) 0 in
  let dst0 := replicate (Z.to_nat width) 1 in
  0 < width ∧ 0 < 1 ∧ Z.of_nat (length src) = width * 1
  ∧ median_filter_uint16 malloc_ok src dst0 width 1 1 ≠ Some src.
Proof.
  intros width src dst0.
  assert (Z.of_nat (length src) = width * 1) as Hlen
    by (subst src width; rewrite length_replicate; lia).
  split_and!; [done|done|done|].
  unfold median_filter_uint16.
  rewrite (wide_grid_run_fails malloc_ok (replicate 1 0)); [done|..].
  - subst width. lia.
  - lia.
  - rewrite Hlen. subst width. lia.
  - reflexivity.
Qed.

(** C7, amended.  For a grid with [width > 0] and [height > 0], both at
    most [INT_MAX], an output buffer of the same size and a successful
    allocation of the window, the filter run with [ksize = 1] produces an
    output equal to the input: every cell [(r, c)] receives the input
    value at [(r, c)]. *)
Theorem C7_ksize_one_identity malloc buf src dst0 width height :
  Z.of_nat (length src) = width * height →
  Z.of_nat (length dst0) = width * height →
  0 < width ≤ INT_MAX → 0 < height ≤ INT_MAX →
  malloc (to_size_t (to_size_t (1 * 1) * 2)) = Some buf →
  Z.of_nat (length buf) = 1 →
  median_filter_uint16 malloc src dst0 width height 1 = Some src.
Proof.
  intros Hsrc Hdst Hw Hh Hmalloc Hbuf.
  assert (safe_dims width height 1) as Hsafe.
  { unfold safe_dims. change (1 / 2) with 0. change (1 mod 2) with 1. lia. }
  destruct (median_filter_run_spec src dst0 width height 1
              Hsrc Hdst Hsafe malloc buf Hmalloc Hbuf) as [w Hrun].
  unfold median_filter_uint16. rewrite Hrun.
  cbn [fmap option_fmap option_map dst]. f_equal.
  apply (list_eq_same_length _ _ (length src)); [done| |].
  { rewrite length_fmap.
    pose proof (all_windows_length src width height 1). lia. }
  intros i x y Hi Hx Hy.
  set (r := Z.of_nat i / width). set (c := Z.of_nat i mod width).
  assert (Z.of_nat i = r * width + c) as Hrc
    by (subst r c; pose proof (Z.div_mod (Z.of_nat i) width); lia).
  assert (0 ≤ c < width) as Hc by (subst c; apply Z.mod_pos_bound; lia).
  assert (0 ≤ r < height) as Hr.
  { subst r. split; [apply Z.div_pos; lia|].
    apply Z.div_lt_upper_bound; lia. }
  rewrite list_lookup_fmap in Hx.
  replace i with (Z.to_nat (r * width + c)) in Hx by lia.
  rewrite (all_windows_lookup _ _ _ _ _ _ [mirror src width height r c])
    in Hx; [|done|done|].
  - simpl in Hx. injection Hx as <-.
    unfold middle. simpl.
    unfold mirror, pixel, sample, reflect.
    destruct (r <? 0) eqn:?; [lia|]. destruct (height <=? r) eqn:?; [lia|].
    destruct (c <? 0) eqn:?; [lia|]. destruct (width <=? c) eqn:?; [lia|].
    rewrite rd_lookup by lia. rewrite <- Hrc, Nat2Z.id. by rewrite Hy.
  - rewrite row_windows_one by lia.
    rewrite list_lookup_fmap, lookup_seqZ_lt by lia. simpl.
    do 3 f_equal. lia.
Qed.

Lemma C7_ksize_one_identity_witness :
  median_filter_uint16 malloc_ok example_src (replicate 20 0) 5 4 1
  = Some example_src.
Proof.
  apply (C7_ksize_one_identity malloc_ok [0] example_src (replicate 20 0) 5 4);
    [reflexivity | reflexivity | unfold INT_MAX; simpl; lia
    | unfold INT_MAX; simpl; lia | reflexivity | reflexivity].
Defined.

(** ** C8: memory safety *)

(** C8 as stated fails for a width beyond the type [int].  With
    [ksize = 1], [height = 1] and [width = 2 ^ 31 + 1] the preconditions
    of the claim hold, yet at column [2 ^ 31] the index [getp] computes is
    [2 ^ 64 - 2 ^ 31], outside the source grid, and the run is
    undefined. *)
Lemma C8_counterexample :
  let width := 2 ^ 31 + 1 in
  let src := replicate (Z.to_nat width) 0 in
  let dst0 := replicate (Z.to_nat width) 1 in
  1 mod 2 = 1 ∧ 1 ≤ 15 ∧ 1 / 2 < width ∧ 1 / 2 < 1
  ∧ Z.of_nat (length src) = width * 1
  ∧ getp_index width 1 (to_int (to_size_t (0 + 0)))
      (to_int (to_size_t (2 ^ 31 + 1 / 2)))
    = 2 ^ 64 - 2 ^ 31
  ∧ ¬ (2 ^ 64 - 2 ^ 31 < width * 1)
  ∧ median_filter_run malloc_ok src dst0 width 1 1 = None.
Proof.
  intros width src dst0.
  assert (Z.of_nat (length src) = width * 1) as Hlen
    by (subst src width; rewrite length_replicate; lia).
  split_and!; [done|lia|done|done|done| |subst width; lia|].
  - apply wide_column_index. lia.
  - apply (wide_grid_run_fails malloc_ok (replicate 1 0)).
    + subst width. lia.
    + lia.
    + rewrite Hlen. subst width. lia.
    + reflexivity.
Qed.

(** C8, amended.  For an odd [ksize ≤ 15] with [ksize / 2 < width],
    [ksize / 2 < height], [width + ksize / 2 ≤ INT_MAX] and
    [height + ksize / 2 ≤ INT_MAX], input and output buffers of
    [width * height] samples and a successful allocation of the window,
    every memory access of the filter is in bounds: the run, in which
    each array access is checked, completes; each index [getp] computes
    for a coordinate of the padded range lies in [0, width * height);
    each write to [new_col] has an index below [ksize], hence below 15;
    and the median index is below [ksize * ksize]. *)
Theorem C8_accesses_in_bounds malloc buf src dst0 width height ksize :
  Z.of_nat (length src) = width * height →
  Z.of_nat (length dst0) = width * height →
  safe_dims width height ksize →
  malloc (to_size_t (to_size_t (ksize * ksize) * 2)) = Some buf →
  Z.of_nat (length buf) = ksize * ksize →
  (∃ s, median_filter_run malloc src dst0 width height ksize = Some s)
  ∧ (∀ r c, - (ksize / 2) ≤ r < height + ksize / 2 →
            - (ksize / 2) ≤ c < width + ksize / 2 →
            0 ≤ getp_index width height r c < width * height)
  ∧ (∀ dr, to_int (- to_int (ksize / 2)) ≤ dr < to_int (ksize / 2) + 1 →
           0 ≤ dr + to_int (ksize / 2) < ksize ∧ dr + to_int (ksize / 2) < 15)
  ∧ 0 ≤ to_size_t (ksize / 2 * ksize + ksize / 2) < ksize * ksize.
Proof.
  intros Hsrc Hdst Hsafe Hmalloc Hbuf.
  destruct (median_filter_run_spec src dst0 width height ksize
              Hsrc Hdst Hsafe malloc buf Hmalloc Hbuf) as [w Hrun].
  pose proof (safe_half _ _ _ Hsafe) as [Hh Hk].
  destruct (safe_int_half _ _ _ Hsafe) as [Hih Hin].
  split; [|split; [|split]].
  - eauto.
  - intros r c Hr Hc.
    by destruct (getp_safe src width height ksize r c) as [_ ?].
  - rewrite Hih, Hin. intros dr Hdr. lia.
  - destruct (middle_index ksize) as (Hm & _);
      [by destruct Hsafe as (? & ? & _)..|].
    rewrite to_size_t_id; [done|].
    assert (ksize * ksize ≤ 225) by nia. lia.
Qed.

Lemma C8_accesses_in_bounds_witness :
  ∃ s, median_filter_run malloc_ok example_src (replicate 20 0) 5 4 3 = Some s.
Proof.
  apply (C8_accesses_in_bounds malloc_ok (replicate 9 0) example_src
           (replicate 20 0) 5 4 3);
    [reflexivity | reflexivity | exact example_safe | reflexivity
    | reflexivity].
Defined.

(** ** C9: degenerate grids *)

(** C9, evaluated on a 1 by 3 grid (one row, three columns) with
    [ksize = 3], a kernel size within the grid extent.  Row [-1] is
    mirrored to row [1], which the grid does not have: the very first
    request of [getp] asks for index 4 of a 3-element array, and the run
    is undefined. *)
Theorem C9_single_row_out_of_bounds :
  getp_index 3 1 (-1) (-1) = 4
  ∧ getp [1; 2; 3] 3 1 (-1) (-1) = None
  ∧ median_filter_uint16 malloc_ok [1; 2; 3] [0; 0; 0] 3 1 3 = None.
Proof. split_and!; reflexivity. Qed.

(** ** C10: allocation failure *)

(** C10.  For an odd [ksize], when the allocation of the window fails the
    filter returns normally and without any status; the allocation comes
    before every write to the output, so no cell has been computed and
    the whole output buffer keeps the content the caller gave it. *)
Theorem C10_allocation_failure malloc src dst0 width height ksize :
  ksize mod 2 = 1 →
  malloc (to_size_t (to_size_t (ksize * ksize) * 2)) = None →
  median_filter_uint16 malloc src dst0 width height ksize = Some dst0
  ∧ trace <$> median_filter_run malloc src dst0 width height ksize = Some [].
Proof.
  intros Hodd Hfail.
  unfold median_filter_uint16, median_filter_run.
  rewrite Hodd. simpl. by rewrite Hfail.
Qed.

Lemma C10_allocation_failure_witness :
  median_filter_uint16 malloc_fail example_src (replicate 20 7) 5 4 3
  = Some (replicate 20 7).
Proof.
  apply (C10_allocation_failure malloc_fail example_src (replicate 20 7) 5 4 3);
    reflexivity.
Defined.

(** * Further properties of the code *)

(** ** bisect_left *)

Lemma bisect_loop_range fuel arr n val lo hi :
  n ≤ Z.of_nat (length arr) → n < 2 ^ 63 →
  0 ≤ lo → lo ≤ hi → hi ≤ n → hi - lo ≤ Z.of_nat fuel →
  ∃ pos, bisect_loop fuel arr lo hi val = Some pos ∧ lo ≤ pos ≤ hi.
Proof.
  intros Hn Hn63. revert lo hi.
  induction fuel as [|fuel IH]; intros lo hi Hlo Hle Hhi Hfuel; simpl.
  - destruct (lo <? hi) eqn:Hlt; [apply Z.ltb_lt in Hlt; lia|].
    exists lo. split; [done|lia].
  - destruct (lo <? hi) eqn:Hlt; [|exists lo; split; [done|lia]].
    apply Z.ltb_lt in Hlt.
    assert (lo ≤ Z.shiftr (to_size_t (lo + hi)) 1 < hi) as Hmid
      by (apply shiftr_mid; lia).
    set (mid := Z.shiftr (to_size_t (lo + hi)) 1) in *.
    destruct (lookup_lt_is_Some_2 arr (Z.to_nat mid)) as [x Hx]; [lia|].
    rewrite rd_lookup, Hx by lia. simpl.
    destruct (x <? val).
    + destruct (IH (mid + 1) hi) as (pos & ? & ?); [lia..|].
      exists pos. split; [done|lia].
    + destruct (IH lo mid) as (pos & ? & ?); [lia..|].
      exists pos. split; [done|lia].
Qed.

Lemma partition_filter_lt val (l : list Z) (pos : nat) :
  (pos ≤ length l)%nat →
  (∀ (i : nat) x, (i < pos)%nat → l !! i = Some x → x < val) →
  (∀ (i : nat) x, (pos ≤ i)%nat → l !! i = Some x → val ≤ x) →
  filter (λ x, x < val) l = take pos l.
Proof.
  revert pos. induction l as [|a l IH]; intros pos Hlen Hlow Hhigh.
  - by destruct pos.
  - destruct pos as [|pos]; simpl.
    + rewrite filter_cons_False
        by (pose proof (Hhigh 0%nat a ltac:(lia) eq_refl); lia).
      apply (IH 0%nat); [lia|intros; lia|].
      intros i x _ Hx. apply (Hhigh (S i)); [lia|done].
    + rewrite filter_cons_True
        by (pose proof (Hlow 0%nat a ltac:(lia) eq_refl); lia).
      f_equal. apply IH; [simpl in Hlen; lia| |].
      * intros i x ? Hx. apply (Hlow (S i)); [lia|done].
      * intros i x ? Hx. apply (Hhigh (S i)); [lia|done].
Qed.

(** X1.  On an array whose first [n] elements ascend, [bisect_left]
    returns the leftmost insertion point of [val]: every element before
    it is smaller than [val], every element from it up to [n] is at least
    [val], and the position is the number of elements of the prefix that
    are smaller than [val]. *)
Theorem X1_bisect_left_leftmost arr n val :
  0 ≤ n ≤ Z.of_nat (length arr) → n < 2 ^ 63 →
  Sorted Z.le (take (Z.to_nat n) arr) →
  ∃ pos : nat,
    bisect_left arr n val = Some (Z.of_nat pos)
    ∧ Z.of_nat pos ≤ n
    ∧ (∀ (i : nat) x, (i < pos)%nat → arr !! i = Some x → x < val)
    ∧ (∀ (i : nat) x, (pos ≤ i)%nat → Z.of_nat i < n →
                      arr !! i = Some x → val ≤ x)
    ∧ pos = length (filter (λ x, x < val) (take (Z.to_nat n) arr)).
Proof.
  intros Hn Hn63 Hs%Sorted_ascending.
  destruct (bisect_left_spec arr n val) as (pos & Hb & Hle & Hlow & Hhigh);
    [done..|].
  exists pos. split_and!; [done|done|done| |].
  - intros i x ? ? ?. eapply Hhigh; [|done]. lia.
  - rewrite (partition_filter_lt val _ pos).
    + rewrite length_take, length_take. lia.
    + rewrite length_take. lia.
    + intros i x ? [? ?]%lookup_take_Some. by eapply Hlow.
    + intros i x ? [? ?]%lookup_take_Some. eapply Hhigh; [|done]. lia.
Qed.

Lemma X1_bisect_left_leftmost_witness :
  ∃ pos : nat,
    bisect_left [1; 3; 3; 5; 8] 5 3 = Some (Z.of_nat pos)
    ∧ Z.of_nat pos ≤ 5
    ∧ (∀ (i : nat) x, (i < pos)%nat → [1; 3; 3; 5; 8] !! i = Some x → x < 3)
    ∧ (∀ (i : nat) x, (pos ≤ i)%nat → Z.of_nat i < 5 →
                      [1; 3; 3; 5; 8] !! i = Some x → 3 ≤ x)
    ∧ pos = length (filter (λ x, x < 3) (take (Z.to_nat 5) [1; 3; 3; 5; 8])).
Proof.
  apply (X1_bisect_left_leftmost [1; 3; 3; 5; 8] 5 3);
    [simpl; lia | lia | simpl; repeat constructor; lia].
Defined.

(** X2.  Whatever the array holds (ascending or not), [bisect_left] on a
    prefix of length [n] within the array terminates without leaving the
    array and returns a position between 0 and [n]. *)
Theorem X2_bisect_left_in_bounds arr n val :
  0 ≤ n ≤ Z.of_nat (length arr) → n < 2 ^ 63 →
  ∃ pos, bisect_left arr n val = Some pos ∧ 0 ≤ pos ≤ n.
Proof.
  intros Hn Hn63. unfold bisect_left.
  apply (bisect_loop_range _ _ n); lia.
Qed.

Lemma X2_bisect_left_in_bounds_witness :
  ∃ pos, bisect_left [9; 2; 7; 2; 5] 5 4 = Some pos ∧ 0 ≤ pos ≤ 5.
Proof.
  apply (X2_bisect_left_in_bounds [9; 2; 7; 2; 5] 5 4); simpl; lia.
Defined.

(** X3.  When [val] occurs in the ascending prefix, [bisect_left]
    returns the index of its first occurrence. *)
Theorem X3_bisect_left_first_occurrence arr n val (k : nat) :
  0 ≤ n ≤ Z.of_nat (length arr) → n < 2 ^ 63 →
  Sorted Z.le (take (Z.to_nat n) arr) →
  Z.of_nat k < n → arr !! k = Some val →
  ∃ pos : nat,
    bisect_left arr n val = Some (Z.of_nat pos)
    ∧ arr !! pos = Some val
    ∧ (pos ≤ k)%nat
    ∧ (∀ (i : nat) x, (i < pos)%nat → arr !! i = Some x → x ≠ val).
Proof.
  intros Hn Hn63 Hs%Sorted_ascending Hk Hval.
  destruct (bisect_left_spec arr n val) as (pos & Hb & Hle & Hlow & Hhigh);
    [done..|].
  assert (pos ≤ k)%nat as Hpk.
  { destruct (decide (pos ≤ k)%nat); [done|].
    specialize (Hlow k val ltac:(lia) Hval). lia. }
  destruct (lookup_lt_is_Some_2 arr pos) as [x Hx]; [lia|].
  exists pos. split_and!; [done| |done|].
  - rewrite Hx. f_equal.
    assert (val ≤ x) by (eapply Hhigh; [|done]; lia).
    assert (x ≤ val); [|lia].
    apply (Hs pos k); [done|..]; apply lookup_take_Some; split; (done || lia).
  - intros i y ? Hy. specialize (Hlow i y ltac:(lia) Hy). lia.
Qed.

Lemma X3_bisect_left_first_occurrence_witness :
  ∃ pos : nat,
    bisect_left [1; 3; 3; 5; 8] 5 3 = Some (Z.of_nat pos)
    ∧ [1; 3; 3; 5; 8] !! pos = Some 3
    ∧ (pos ≤ 2)%nat
    ∧ (∀ (i : nat) x, (i < pos)%nat → [1; 3; 3; 5; 8] !! i = Some x → x ≠ 3).
Proof.
  apply (X3_bisect_left_first_occurrence [1; 3; 3; 5; 8] 5 3 2);
    [simpl; lia | lia | simpl; repeat constructor; lia | lia | reflexivity].
Defined.

(** X4.  On an ascending prefix the insertion point grows with the
    value searched for: both searches return, and the position for the
    smaller value is not after the position for the larger one. *)
Theorem X4_bisect_left_monotone arr n v1 v2 :
  0 ≤ n ≤ Z.of_nat (length arr) → n < 2 ^ 63 →
  Sorted Z.le (take (Z.to_nat n) arr) →
  v1 ≤ v2 →
  ∃ p1 p2,
    bisect_left arr n v1 = Some p1 ∧ bisect_left arr n v2 = Some p2
    ∧ p1 ≤ p2.
Proof.
  intros Hn Hn63 Hs%Sorted_ascending Hv.
  destruct (bisect_left_spec arr n v1) as (q1 & Hb1 & Hle1 & Hlow1 & Hhigh1);
    [done..|].
  destruct (bisect_left_spec arr n v2) as (q2 & Hb2 & Hle2 & Hlow2 & Hhigh2);
    [done..|].
  exists (Z.of_nat q1), (Z.of_nat q2). split; [done|]. split; [done|].
  destruct (decide (q1 ≤ q2)%nat); [lia|].
  destruct (lookup_lt_is_Some_2 arr q2) as [x Hx]; [lia|].
  assert (x < v1) by (eapply Hlow1; [|done]; lia).
  assert (v2 ≤ x) by (eapply Hhigh2; [|done]; lia).
  lia.
Qed.

Lemma X4_bisect_left_monotone_witness :
  ∃ p1 p2,
    bisect_left [1; 3; 3; 5; 8] 5 3 = Some p1
    ∧ bisect_left [1; 3; 3; 5; 8] 5 5 = Some p2
    ∧ p1 ≤ p2.
Proof.
  apply (X4_bisect_left_monotone [1; 3; 3; 5; 8] 5 3 5);
    [simpl; lia | lia | simpl; repeat constructor; lia | lia].
Defined.

(** ** cmp_uint16 *)

(** X5.  [cmp_uint16] is a consistent three-way comparison: its sign is
    the order of its arguments, it is 0 exactly on equal arguments,
    swapping the arguments negates it, and it only returns -1, 0 or 1. *)
Theorem X5_cmp_uint16_three_way a b :
  (cmp_uint16 a b < 0 ↔ a < b)
  ∧ (cmp_uint16 a b = 0 ↔ a = b)
  ∧ (0 < cmp_uint16 a b ↔ b < a)
  ∧ cmp_uint16 b a = - cmp_uint16 a b
  ∧ (cmp_uint16 a b = -1 ∨ cmp_uint16 a b = 0 ∨ cmp_uint16 a b = 1).
Proof.
  unfold cmp_uint16.
  destruct (a <? b) eqn:Hab, (b <? a) eqn:Hba;
    try apply Z.ltb_lt in Hab; try apply Z.ltb_ge in Hab;
    try apply Z.ltb_lt in Hba; try apply Z.ltb_ge in Hba; lia.
Qed.

(** ** getp *)

Lemma rd_Some_bound a i x : rd a i = Some x → 0 ≤ i < Z.of_nat (length a).
Proof.
  unfold rd. case_match; [|done]. intros H1%lookup_lt_Some. lia.
Qed.

Lemma getp_index_reflect width height r c :
  0 < width → 0 < height →
  INT_MIN < r ≤ INT_MAX → INT_MIN < c ≤ INT_MAX →
  getp_index width height r c
  = to_size_t (reflect height r * width + reflect width c).
Proof.
  intros Hw Hh Hr Hc. unfold getp_index.
  destruct (getp_axis height r) as [-> _]; [done..|].
  destruct (getp_axis width c) as [-> _]; [done..|].
  apply to_size_t_index.
Qed.

Lemma rd_to_size_t_negative src i :
  - 2 ^ 63 < i < 0 → Z.of_nat (length src) < 2 ^ 62 →
  rd src (to_size_t i) = None.
Proof.
  intros Hi Hsz. unfold rd. case_match; [|done].
  apply lookup_ge_None_2. unfold to_size_t.
  replace i with (i + 2 ^ 64 + -1 * 2 ^ 64) by lia.
  rewrite Z.mod_add by lia. rewrite Z.mod_small by lia. lia.
Qed.

Lemma grid_size_bound width height :
  0 < width ≤ INT_MAX → 0 < height ≤ INT_MAX → width * height < 2 ^ 62.
Proof.
  unfold INT_MAX. intros.
  assert (width * height ≤ (2 ^ 31 - 1) * (2 ^ 31 - 1))
    by (apply Z.mul_le_mono_nonneg; lia).
  lia.
Qed.

(** X6.  A request inside the grid goes through [getp] unchanged: it
    returns the sample stored at [r * width + c]. *)
Theorem X6_getp_in_range src width height r c :
  Z.of_nat (length src) = width * height →
  width ≤ INT_MAX → height ≤ INT_MAX →
  0 ≤ r < height → 0 ≤ c < width →
  ∃ x, getp src width height r c = Some x
       ∧ src !! Z.to_nat (r * width + c) = Some x.
Proof.
  intros Hlen Hw Hh Hr Hc.
  pose proof (grid_size_bound width height ltac:(lia) ltac:(lia)).
  assert (0 ≤ r * width + c < width * height) as Hi by nia.
  unfold getp.
  rewrite getp_index_reflect by (unfold INT_MIN, INT_MAX in *; lia).
  unfold reflect.
  destruct (r <? 0) eqn:?; [lia|]. destruct (height <=? r) eqn:?; [lia|].
  destruct (c <? 0) eqn:?; [lia|]. destruct (width <=? c) eqn:?; [lia|].
  rewrite to_size_t_id by lia. rewrite rd_lookup by lia.
  destruct (lookup_lt_is_Some_2 src (Z.to_nat (r * width + c))) as [x Hx];
    [lia|].
  exists x. by rewrite Hx.
Qed.

Lemma X6_getp_in_range_witness :
  ∃ x, getp example_src 5 4 2 3 = Some x
       ∧ example_src !! Z.to_nat (2 * 5 + 3) = Some x.
Proof.
  apply (X6_getp_in_range example_src 5 4 2 3);
    unfold INT_MAX; simpl; lia.
Defined.

(** X7.  The padding mirrors about the edge samples without repeating
    them: [k] steps before row 0 is row [k], [k] steps after the last row
    is [k] steps before it, and likewise for columns (the padded
    coordinates being within the type [int]). *)
Theorem X7_getp_mirror_symmetry src width height r c k :
  0 < width → 2 * width ≤ INT_MAX → 0 < height → 2 * height ≤ INT_MAX →
  INT_MIN < r ≤ INT_MAX → INT_MIN < c ≤ INT_MAX →
  (1 ≤ k < height →
     getp src width height (- k) c = getp src width height k c
     ∧ getp src width height (height - 1 + k) c
       = getp src width height (height - 1 - k) c)
  ∧ (1 ≤ k < width →
     getp src width height r (- k) = getp src width height r k
     ∧ getp src width height r (width - 1 + k)
       = getp src width height r (width - 1 - k)).
Proof.
  intros Hw Hw2 Hh Hh2 Hr Hc. unfold getp.
  split; intros Hk; split;
    rewrite !getp_index_reflect by (unfold INT_MIN, INT_MAX in *; lia);
    do 3 f_equal; unfold reflect;
    repeat (case_match; try lia).
Qed.

Lemma X7_getp_mirror_symmetry_witness :
  getp example_src 5 4 (-1) 2 = getp example_src 5 4 1 2
  ∧ getp example_src 5 4 (4 - 1 + 1) 2 = getp example_src 5 4 (4 - 1 - 1) 2.
Proof.
  apply (X7_getp_mirror_symmetry example_src 5 4 0 2 1);
    unfold INT_MIN, INT_MAX; simpl; lia.
Defined.

(** X8.  [getp] reflects once and does not check the result.  For a
    column inside the grid, the request for row [r] is answered exactly
    when [-height < r < 2 * height - 1]; one row further on either side
    the access leaves the array. *)
Theorem X8_getp_defined_range src width height r c :
  Z.of_nat (length src) = width * height →
  0 < width ≤ INT_MAX → 0 < height ≤ INT_MAX →
  INT_MIN < r ≤ INT_MAX → 0 ≤ c < width →
  is_Some (getp src width height r c) ↔ - height < r < 2 * height - 1.
Proof.
  intros Hlen Hw Hh Hr Hc.
  pose proof (grid_size_bound width height Hw Hh) as Hsz.
  unfold getp.
  rewrite getp_index_reflect by (unfold INT_MIN, INT_MAX in *; lia).
  assert (reflect width c = c) as ->.
  { unfold reflect. destruct (c <? 0) eqn:?; [lia|].
    destruct (width <=? c) eqn:?; lia. }
  set (r' := reflect height r).
  assert (INT_MIN ≤ r' ≤ INT_MAX) as Hr'
    by (by destruct (getp_axis height r) as [_ ?]; [lia|done|]).
  assert (0 ≤ r' < height ↔ - height < r < 2 * height - 1) as Hiff.
  { subst r'. unfold reflect.
    destruct (r <? 0) eqn:?; [lia|]. destruct (height <=? r) eqn:?; lia. }
  rewrite <- Hiff. split.
  - intros [x Hx].
    destruct (decide (0 ≤ r' * width + c)) as [Hpos|Hneg].
    + rewrite to_size_t_id in Hx
        by (unfold INT_MIN, INT_MAX in *; nia).
      apply rd_Some_bound in Hx. nia.
    + rewrite rd_to_size_t_negative in Hx; [done| |lia].
      unfold INT_MIN, INT_MAX in *. nia.
  - intros Hin. assert (0 ≤ r' * width + c < width * height) by nia.
    rewrite to_size_t_id by lia. rewrite rd_lookup by lia.
    apply lookup_lt_is_Some_2. lia.
Qed.

Lemma X8_getp_defined_range_witness :
  is_Some (getp [1; 2; 3] 3 1 (-1) 0) ↔ - 1 < -1 < 2 * 1 - 1.
Proof.
  apply (X8_getp_defined_range [1; 2; 3] 3 1 (-1) 0);
    unfold INT_MIN, INT_MAX; simpl; lia.
Defined.

(** ** Where the output values come from *)

Lemma mirror_Forall (Q : Z → Prop) src width height ksize r c :
  Z.of_nat (length src) = width * height →
  safe_dims width height ksize → Forall Q src →
  - (ksize / 2) ≤ r < height + ksize / 2 →
  - (ksize / 2) ≤ c < width + ksize / 2 →
  Q (mirror src width height r c).
Proof.
  intros Hlen Hsafe HQ Hr Hc.
  destruct (getp_safe src width height ksize r c) as [Hg _]; [done..|].
  unfold getp, rd in Hg. case_match; [|done].
  by eapply Forall_lookup_1.
Qed.

Lemma neighborhood_Forall (Q : Z → Prop) src width height ksize r :
  Z.of_nat (length src) = width * height →
  safe_dims width height ksize → Forall Q src →
  0 ≤ r < height →
  Forall Q (neighborhood src width height ksize r 0).
Proof.
  intros Hlen Hsafe HQ Hr. pose proof (safe_half _ _ _ Hsafe) as [Hh Hk].
  assert (0 < width) by (destruct Hsafe as (_ & _ & ? & _); lia).
  unfold neighborhood, offsets.
  apply Forall_join, Forall_fmap, Forall_forall.
  intros dr Hdr%elem_of_seqZ. simpl.
  apply Forall_fmap, Forall_forall. intros dc Hdc%elem_of_seqZ. simpl.
  apply (mirror_Forall Q src width height ksize); (done || lia).
Qed.

Lemma column_values_Forall (Q : Z → Prop) src width height ksize r c :
  Z.of_nat (length src) = width * height →
  safe_dims width height ksize → Forall Q src →
  0 ≤ r < height → 0 ≤ c < width →
  Forall Q (column_values src width height ksize r c).
Proof.
  intros Hlen Hsafe HQ Hr Hc. pose proof (safe_half _ _ _ Hsafe) as [Hh Hk].
  unfold column_values, offsets.
  apply Forall_fmap, Forall_forall. intros dr Hdr%elem_of_seqZ. simpl.
  apply (mirror_Forall Q src width height ksize); (done || lia).
Qed.

Lemma slide_spec_Forall (Q : Z → Prop) a vs :
  Forall Q a → Forall Q vs → Forall Q (slide_spec a vs).
Proof.
  intros Ha Hvs. unfold slide_spec.
  assert (Forall Q (shift_down a)) as Hsd.
  { unfold shift_down. apply Forall_app.
    split; [by apply Forall_tail|by apply Forall_drop]. }
  clear Ha. generalize dependent (shift_down a).
  induction Hvs as [|v vs Hv Hvs IH]; intros b Hb; simpl; [done|].
  apply IH. unfold insert_slot. rewrite insert_one_Permutation.
  constructor; [done|]. by apply Forall_take.
Qed.

Lemma slide_from_Forall_cols (P : list Z → Prop) src width height ksize r w cs :
  P w →
  (∀ a c, c ∈ cs → P a →
          P (slide_spec a (column_values src width height ksize r c))) →
  Forall P (slide_from src width height ksize r w cs).
Proof.
  revert w. induction cs as [|c cs IH]; intros w Hw Hstep; simpl;
    constructor.
  - apply Hstep; [left|done].
  - apply IH.
    + apply Hstep; [left|done].
    + intros a c' Hc'. apply Hstep. by right.
Qed.

Lemma all_windows_values (Q : Z → Prop) src width height ksize :
  Z.of_nat (length src) = width * height →
  safe_dims width height ksize → Forall Q src →
  Forall (λ w, Forall Q w ∧ Z.of_nat (length w) = ksize * ksize)
         (all_windows src width height ksize).
Proof.
  intros Hlen Hsafe HQ.
  pose proof (safe_win_area _ _ _ Hsafe) as [_ Harea].
  assert (0 ≤ ksize) by (destruct Hsafe as (_ & ? & _); lia).
  unfold all_windows. apply Forall_join, Forall_fmap, Forall_forall.
  intros r Hr%elem_of_seqZ. simpl. unfold row_windows.
  assert (Forall Q (full_sort (neighborhood src width height ksize r 0))
          ∧ Z.of_nat (length (full_sort
                (neighborhood src width height ksize r 0))) = ksize * ksize)
    as H0.
  { split.
    - rewrite full_sort_Permutation.
      apply (neighborhood_Forall Q); (done || lia).
    - rewrite full_sort_length. by apply neighborhood_length. }
  constructor; [done|].
  apply slide_from_Forall_cols; [done|].
  intros a c Hc%elem_of_seqZ [Ha Hl]. split.
  - apply slide_spec_Forall; [done|].
    apply (column_values_Forall Q); (done || lia).
  - rewrite slide_spec_length; lia.
Qed.

Lemma middle_Forall (Q : Z → Prop) ksize w :
  ksize mod 2 = 1 → 0 < ksize ≤ 15 →
  Forall Q w → Z.of_nat (length w) = ksize * ksize →
  Q (middle ksize w).
Proof.
  intros Hodd Hk HQ Hl. destruct (middle_index ksize) as (Hm & _); [done..|].
  unfold middle. apply Forall_nth; [done|]. lia.
Qed.

(** The filter applied under the safety preconditions: any property of
    all input samples is a property of all output samples. *)
Lemma filter_output_Forall (Q : Z → Prop) malloc buf src dst0 width height ksize :
  Z.of_nat (length src) = width * height →
  Z.of_nat (length dst0) = width * height →
  safe_dims width height ksize →
  malloc (to_size_t (to_size_t (ksize * ksize) * 2)) = Some buf →
  Z.of_nat (length buf) = ksize * ksize →
  Forall Q src →
  ∃ out, median_filter_uint16 malloc src dst0 width height ksize = Some out
         ∧ Z.of_nat (length out) = width * height
         ∧ Forall Q out.
Proof.
  intros Hsrc Hdst Hsafe Hmalloc Hbuf HQ.
  destruct (median_filter_run_spec src dst0 width height ksize
              Hsrc Hdst Hsafe malloc buf Hmalloc Hbuf) as [w Hrun].
  pose proof (safe_grid_size _ _ _ Hsafe) as (? & ? & _).
  unfold median_filter_uint16. rewrite Hrun.
  cbn [fmap option_fmap option_map dst].
  eexists; split; [done|]. split.
  - rewrite length_fmap. apply all_windows_length; lia.
  - apply Forall_fmap.
    eapply Forall_impl; [by apply (all_windows_values Q)|].
    intros a [Ha Hl]. simpl.
    destruct Hsafe as (? & ? & _). by apply middle_Forall.
Qed.

(** X10.  Under the safety preconditions every output sample is one of
    the input samples: the filter selects values, it never computes new
    ones (in particular the output stays within the range of the
    input). *)
Theorem X10_output_values_from_input malloc buf src dst0 width height ksize :
  Z.of_nat (length src) = width * height →
  Z.of_nat (length dst0) = width * height →
  safe_dims width height ksize →
  malloc (to_size_t (to_size_t (ksize * ksize) * 2)) = Some buf →
  Z.of_nat (length buf) = ksize * ksize →
  ∃ out, median_filter_uint16 malloc src dst0 width height ksize = Some out
         ∧ ∀ v, v ∈ out → v ∈ src.
Proof.
  intros Hsrc Hdst Hsafe Hmalloc Hbuf.
  destruct (filter_output_Forall (λ v, v ∈ src) malloc buf src dst0
              width height ksize) as (out & Hout & _ & Hall); [done..| |].
  - by apply Forall_forall.
  - exists out. split; [done|]. by apply Forall_forall.
Qed.

Lemma X10_output_values_from_input_witness :
  ∃ out, median_filter_uint16 malloc_ok example_src (replicate 20 0) 5 4 3
         = Some out
         ∧ ∀ v, v ∈ out → v ∈ example_src.
Proof.
  apply (X10_output_values_from_input malloc_ok (replicate 9 0) example_src
           (replicate 20 0) 5 4 3);
    [reflexivity | reflexivity | exact example_safe | reflexivity
    | reflexivity].
Defined.

(** X11.  A grid whose samples all equal [v] is left unchanged by the
    filter (under the safety preconditions). *)
Theorem X11_constant_grid malloc buf src dst0 width height ksize v :
  Z.of_nat (length src) = width * height →
  Z.of_nat (length dst0) = width * height →
  safe_dims width height ksize →
  malloc (to_size_t (to_size_t (ksize * ksize) * 2)) = Some buf →
  Z.of_nat (length buf) = ksize * ksize →
  Forall (λ x, x = v) src →
  median_filter_uint16 malloc src dst0 width height ksize = Some src.
Proof.
  intros Hsrc Hdst Hsafe Hmalloc Hbuf Hv.
  destruct (filter_output_Forall (λ x, x = v) malloc buf src dst0
              width height ksize) as (out & Hout & Hlen & Hall); [done..|].
  rewrite Hout. f_equal.
  apply (list_eq_same_length _ _ (length src)); [done|lia|].
  intros i x y _ Hx Hy.
  rewrite (Forall_lookup_1 _ _ _ _ Hall Hx).
  by rewrite (Forall_lookup_1 _ _ _ _ Hv Hy).
Qed.

Lemma X11_constant_grid_witness :
  median_filter_uint16 malloc_ok (replicate 20 7) (replicate 20 0) 5 4 3
  = Some (replicate 20 7).
Proof.
  apply (X11_constant_grid malloc_ok (replicate 9 0) (replicate 20 7)
           (replicate 20 0) 5 4 3 7);
    [reflexivity | reflexivity | exact example_safe | reflexivity
    | reflexivity | repeat constructor].
Defined.

(** X12.  Under the safety preconditions the result does not depend on
    what the output buffer or the freshly allocated window held on
    entry: every output cell is overwritten and uninitialised memory
    never reaches the output. *)
Theorem X12_output_ignores_initial_buffers
    malloc1 buf1 malloc2 buf2 src dst1 dst2 width height ksize :
  Z.of_nat (length src) = width * height →
  Z.of_nat (length dst1) = width * height →
  Z.of_nat (length dst2) = width * height →
  safe_dims width height ksize →
  malloc1 (to_size_t (to_size_t (ksize * ksize) * 2)) = Some buf1 →
  Z.of_nat (length buf1) = ksize * ksize →
  malloc2 (to_size_t (to_size_t (ksize * ksize) * 2)) = Some buf2 →
  Z.of_nat (length buf2) = ksize * ksize →
  median_filter_uint16 malloc1 src dst1 width height ksize
  = median_filter_uint16 malloc2 src dst2 width height ksize.
Proof.
  intros Hsrc Hd1 Hd2 Hsafe Hm1 Hb1 Hm2 Hb2.
  destruct (median_filter_run_spec src dst1 width height ksize
              Hsrc Hd1 Hsafe malloc1 buf1 Hm1 Hb1) as [w1 Hrun1].
  destruct (median_filter_run_spec src dst2 width height ksize
              Hsrc Hd2 Hsafe malloc2 buf2 Hm2 Hb2) as [w2 Hrun2].
  unfold median_filter_uint16. by rewrite Hrun1, Hrun2.
Qed.

Lemma X12_output_ignores_initial_buffers_witness :
  median_filter_uint16 malloc_ok example_src (replicate 20 0) 5 4 3
  = median_filter_uint16 (λ _, Some (replicate 9 77)) example_src
      (replicate 20 5) 5 4 3.
Proof.
  apply (X12_output_ignores_initial_buffers
           malloc_ok (replicate 9 0) (λ _, Some (replicate 9 77))
           (replicate 9 77) example_src (replicate 20 0) (replicate 20 5)
           5 4 3);
    [reflexivity | reflexivity | reflexivity | exact example_safe
    | reflexivity | reflexivity | reflexivity | reflexivity].
Defined.

(** ** Empty input *)

(** X13.  The initial window is built before the row loop is entered and
    without looking at the dimensions.  On an empty source array with an
    odd [ksize] between 1 and [INT_MAX] and a successful allocation the
    very first [getp] call therefore reads outside the array, whatever
    [width] and [height] are. *)
Theorem X13_empty_source_out_of_bounds malloc buf dst0 width height ksize :
  ksize mod 2 = 1 → 0 < ksize ≤ INT_MAX →
  malloc (to_size_t (to_size_t (ksize * ksize) * 2)) = Some buf →
  median_filter_uint16 malloc [] dst0 width height ksize = None.
Proof.
  intros Hodd Hk Hmalloc.
  unfold median_filter_uint16, median_filter_run.
  rewrite Hodd. simpl. rewrite Hmalloc.
  assert (0 ≤ ksize / 2 ≤ INT_MAX) as Hh.
  { split; [apply Z.div_pos; lia|].
    apply Z.div_le_upper_bound; unfold INT_MAX in *; lia. }
  assert (to_int (ksize / 2) = ksize / 2) as Hih
    by (apply to_int_id; unfold INT_MIN, INT_MAX in *; lia).
  assert (to_int (- (ksize / 2)) = - (ksize / 2)) as Hin
    by (apply to_int_id; unfold INT_MIN, INT_MAX in *; lia).
  unfold build_window. rewrite Hih, Hin. unfold for_range.
  destruct (Z.to_nat (ksize / 2 + 1 - - (ksize / 2))) as [|n] eqn:Hn; [lia|].
  simpl. unfold getp, rd. by case_match.
Qed.

Lemma X13_empty_source_out_of_bounds_witness :
  median_filter_uint16 malloc_ok [] [] 0 0 3 = None.
Proof.
  apply (X13_empty_source_out_of_bounds malloc_ok (replicate 9 0) [] 0 0 3);
    [reflexivity | unfold INT_MAX; lia | reflexivity].
Defined.

(** ** Which input rows an output row depends on *)

Lemma reflect_in_range extent v : 0 ≤ v < extent → reflect extent v = v.
Proof.
  intros. unfold reflect.
  destruct (v <? 0) eqn:?; [lia|]. destruct (extent <=? v) eqn:?; lia.
Qed.

Lemma slide_from_ext src1 src2 width height ksize r w cs :
  (∀ c, c ∈ cs → column_values src1 width height ksize r c
                 = column_values src2 width height ksize r c) →
  slide_from src1 width height ksize r w cs
  = slide_from src2 width height ksize r w cs.
Proof.
  revert w. induction cs as [|c cs IH]; intros w Hcs; simpl; [done|].
  rewrite (Hcs c) by left. f_equal. apply IH. intros c' ?. apply Hcs. by right.
Qed.

(** When two grids agree on the rows that the (mirrored) neighbourhoods
    of row [r] touch, the windows of row [r] are the same. *)
Lemma row_windows_local src1 src2 width height ksize r :
  safe_dims width height ksize → 0 ≤ r < height →
  (∀ dr c, - (ksize / 2) ≤ dr ≤ ksize / 2 → 0 ≤ c < width →
           pixel src1 width (reflect height (r + dr)) c
           = pixel src2 width (reflect height (r + dr)) c) →
  row_windows src1 width height ksize r = row_windows src2 width height ksize r.
Proof.
  intros Hsafe Hr Hagree. pose proof (safe_half _ _ _ Hsafe) as [Hh Hk].
  assert (ksize / 2 < width) by (by destruct Hsafe as (_ & _ & ? & _)).
  assert (∀ dr c, - (ksize / 2) ≤ dr ≤ ksize / 2 →
                  - (ksize / 2) ≤ c < width + ksize / 2 →
                  mirror src1 width height (r + dr) c
                  = mirror src2 width height (r + dr) c) as Hm.
  { intros dr c Hdr Hc. unfold mirror. apply Hagree; [done|].
    apply (reflect_range width (ksize / 2)); lia. }
  assert (neighborhood src1 width height ksize r 0
          = neighborhood src2 width height ksize r 0) as Hnb.
  { unfold neighborhood, offsets. f_equal.
    apply list_fmap_ext. intros i dr [-> ?]%lookup_seqZ.
    apply list_fmap_ext. intros j dc [-> ?]%lookup_seqZ.
    apply Hm; lia. }
  unfold row_windows. rewrite Hnb. f_equal.
  apply slide_from_ext. intros c Hc%elem_of_seqZ.
  unfold column_values, offsets.
  apply list_fmap_ext. intros i dr [-> ?]%lookup_seqZ. apply Hm; lia.
Qed.

(** X14.  Output row [r] depends only on the input rows within distance
    [ksize / 2] of [r] (after mirroring): two grids of the same
    dimensions that agree on those rows get the same output row [r].
    The window is rebuilt from the source at every row, so nothing is
    carried over from the rows above. *)
Theorem X14_output_row_locality
    malloc buf src1 src2 dst1 dst2 width height ksize r :
  Z.of_nat (length src1) = width * height →
  Z.of_nat (length src2) = width * height →
  Z.of_nat (length dst1) = width * height →
  Z.of_nat (length dst2) = width * height →
  safe_dims width height ksize →
  malloc (to_size_t (to_size_t (ksize * ksize) * 2)) = Some buf →
  Z.of_nat (length buf) = ksize * ksize →
  0 ≤ r < height →
  (∀ dr c, - (ksize / 2) ≤ dr ≤ ksize / 2 → 0 ≤ c < width →
           pixel src1 width (reflect height (r + dr)) c
           = pixel src2 width (reflect height (r + dr)) c) →
  ∃ out1 out2,
    median_filter_uint16 malloc src1 dst1 width height ksize = Some out1
    ∧ median_filter_uint16 malloc src2 dst2 width height ksize = Some out2
    ∧ ∀ c, 0 ≤ c < width →
           out1 !! Z.to_nat (r * width + c) = out2 !! Z.to_nat (r * width + c).
Proof.
  intros Hs1 Hs2 Hd1 Hd2 Hsafe Hmalloc Hbuf Hr Hagree.
  destruct (median_filter_run_spec src1 dst1 width height ksize
              Hs1 Hd1 Hsafe malloc buf Hmalloc Hbuf) as [w1 Hrun1].
  destruct (median_filter_run_spec src2 dst2 width height ksize
              Hs2 Hd2 Hsafe malloc buf Hmalloc Hbuf) as [w2 Hrun2].
  unfold median_filter_uint16. rewrite Hrun1, Hrun2.
  cbn [fmap option_fmap option_map dst].
  eexists _, _. split; [done|]. split; [done|].
  intros c Hc. rewrite !list_lookup_fmap.
  pose proof (row_windows_length src1 width height ksize r ltac:(lia)) as Hlen.
  destruct (lookup_lt_is_Some_2 (row_windows src1 width height ksize r)
              (Z.to_nat c)) as [x Hx]; [lia|].
  rewrite (all_windows_lookup src1 _ _ _ _ _ x) by done.
  rewrite (row_windows_local src1 src2) in Hx by done.
  by rewrite (all_windows_lookup src2 _ _ _ _ _ x) by done.
Qed.

Lemma X14_output_row_locality_witness :
  ∃ out1 out2,
    median_filter_uint16 malloc_ok example_src (replicate 20 0) 5 4 3
    = Some out1
    ∧ median_filter_uint16 malloc_ok
        (take 15 example_src ++ [0; 0; 0; 0; 0]) (replicate 20 0) 5 4 3
      = Some out2
    ∧ ∀ c, 0 ≤ c < 5 →
           out1 !! Z.to_nat (0 * 5 + c) = out2 !! Z.to_nat (0 * 5 + c).
Proof.
  apply (X14_output_row_locality malloc_ok (replicate 9 0) example_src
           (take 15 example_src ++ [0; 0; 0; 0; 0])
           (replicate 20 0) (replicate 20 0) 5 4 3 0);
    [reflexivity | reflexivity | reflexivity | reflexivity
    | exact example_safe | reflexivity | reflexivity | lia |].
  intros dr c Hdr Hc.
  assert (dr = -1 ∨ dr = 0 ∨ dr = 1) as [-> | [-> | ->]]
    by (change (3 / 2) with 1 in Hdr; lia);
  assert (c = 0 ∨ c = 1 ∨ c = 2 ∨ c = 3 ∨ c = 4)
    as [-> | [-> | [-> | [-> | ->]]]] by lia;
  reflexivity.
Defined.

(** ** Monotone re-mapping of the sample values *)

Section monotone.
Context (f : Z → Z).
Hypothesis Hmono : ∀ a b, a ≤ b → f a ≤ f b.

Lemma full_sort_fmap l : full_sort (f <$> l) = f <$> full_sort l.
Proof.
  symmetry. apply qsort_unique.
  - apply (Sorted_fmap _ Z.le Z.le); [done|apply full_sort_Sorted].
  - by rewrite full_sort_Permutation.
Qed.

Lemma insert_one_fmap v l :
  Sorted Z.le l → insert_one (f v) (f <$> l) = f <$> insert_one v l.
Proof.
  intros Hs. apply (Sorted_unique Z.le).
  - apply insert_one_Sorted. by apply (Sorted_fmap _ Z.le Z.le).
  - apply (Sorted_fmap _ Z.le Z.le); [done|]. by apply insert_one_Sorted.
  - by rewrite !insert_one_Permutation.
Qed.

Lemma drop_last_fmap a : drop_last (f <$> a) = f <$> drop_last a.
Proof. unfold drop_last. by rewrite length_fmap, fmap_take. Qed.

Lemma shift_down_fmap a : shift_down (f <$> a) = f <$> shift_down a.
Proof.
  unfold shift_down. by rewrite length_fmap, fmap_app, fmap_tail, fmap_drop.
Qed.

Lemma slide_spec_fmap a vs :
  Sorted Z.le a → slide_spec (f <$> a) (f <$> vs) = f <$> slide_spec a vs.
Proof.
  intros Ha%shift_down_Sorted. unfold slide_spec. rewrite shift_down_fmap.
  generalize dependent (shift_down a).
  induction vs as [|v vs IH]; intros b Hb; simpl; [done|].
  rewrite <- IH by (by apply insert_slot_Sorted). f_equal.
  unfold insert_slot. rewrite drop_last_fmap.
  apply insert_one_fmap. by apply drop_last_Sorted.
Qed.

Lemma fmap_mjoin (ls : list (list Z)) :
  f <$> mjoin ls = mjoin (fmap (M:=list) f <$> ls).
Proof.
  induction ls as [|l ls IH]; csimpl; [done|]. by rewrite fmap_app, IH.
Qed.

Context (src : list Z) (width height ksize : Z).
Hypothesis Hsrc : Z.of_nat (length src) = width * height.
Hypothesis Hsafe : safe_dims width height ksize.

Lemma mirror_fmap r c :
  - (ksize / 2) ≤ r < height + ksize / 2 →
  - (ksize / 2) ≤ c < width + ksize / 2 →
  mirror (f <$> src) width height r c = f (mirror src width height r c).
Proof.
  intros Hr Hc. pose proof (safe_half _ _ _ Hsafe) as [Hh _].
  destruct Hsafe as (_ & _ & Hw & Hhh & _).
  pose proof (reflect_range height (ksize / 2) r ltac:(lia) Hr).
  pose proof (reflect_range width (ksize / 2) c ltac:(lia) Hc).
  assert (0 ≤ reflect height r * width + reflect width c < width * height)
    by nia.
  unfold mirror, pixel, sample. rewrite !rd_lookup by lia.
  rewrite list_lookup_fmap.
  destruct (lookup_lt_is_Some_2 src
    (Z.to_nat (reflect height r * width + reflect width c))) as [x Hx]; [lia|].
  by rewrite Hx.
Qed.

Lemma neighborhood_fmap r :
  0 ≤ r < height →
  neighborhood (f <$> src) width height ksize r 0
  = f <$> neighborhood src width height ksize r 0.
Proof.
  intros Hr. pose proof (safe_half _ _ _ Hsafe) as [Hh Hk].
  assert (ksize / 2 < width) by (by destruct Hsafe as (_ & _ & ? & _)).
  unfold neighborhood, offsets. rewrite fmap_mjoin, <- list_fmap_compose.
  f_equal. apply list_fmap_ext. intros i dr [-> ?]%lookup_seqZ. simpl.
  rewrite <- list_fmap_compose.
  apply list_fmap_ext. intros j dc [-> ?]%lookup_seqZ. simpl.
  apply mirror_fmap; lia.
Qed.

Lemma column_values_fmap r c :
  0 ≤ r < height → 0 ≤ c < width →
  column_values (f <$> src) width height ksize r c
  = f <$> column_values src width height ksize r c.
Proof.
  intros Hr Hc. pose proof (safe_half _ _ _ Hsafe) as [Hh Hk].
  unfold column_values, offsets. rewrite <- list_fmap_compose.
  apply list_fmap_ext. intros i dr [-> ?]%lookup_seqZ. simpl.
  apply mirror_fmap; lia.
Qed.

Lemma slide_from_fmap r w cs :
  0 ≤ r < height → Sorted Z.le w → (∀ c, c ∈ cs → 0 ≤ c < width) →
  slide_from (f <$> src) width height ksize r (f <$> w) cs
  = fmap (M:=list) f <$> slide_from src width height ksize r w cs.
Proof.
  intros Hr. revert w. induction cs as [|c cs IH]; intros w Hw Hcs; simpl;
    [done|].
  rewrite column_values_fmap by (done || apply Hcs; left).
  rewrite slide_spec_fmap by done. f_equal.
  apply IH; [by apply slide_spec_Sorted|].
  intros c' ?. apply Hcs. by right.
Qed.

Lemma row_windows_fmap r :
  0 ≤ r < height →
  row_windows (f <$> src) width height ksize r
  = fmap (M:=list) f <$> row_windows src width height ksize r.
Proof.
  intros Hr. unfold row_windows. rewrite neighborhood_fmap by done.
  rewrite full_sort_fmap. simpl. f_equal.
  apply slide_from_fmap; [done|apply full_sort_Sorted|].
  intros c Hc%elem_of_seqZ. lia.
Qed.

Lemma all_windows_fmap :
  all_windows (f <$> src) width height ksize
  = fmap (M:=list) f <$> all_windows src width height ksize.
Proof.
  unfold all_windows.
  pose proof row_windows_fmap as Hrow.
  set (g' := row_windows (f <$> src) width height ksize) in *.
  set (g := row_windows src width height ksize) in *.
  clearbody g g'.
  assert (∀ l : list Z, (∀ r, r ∈ l → 0 ≤ r < height) →
            mjoin (g' <$> l) = fmap (M:=list) f <$> mjoin (g <$> l)) as Hall.
  { intros l. induction l as [|a l IHl]; intros Hl; csimpl; [done|].
    rewrite Hrow by (apply Hl; left).
    rewrite fmap_app. f_equal.
    apply IHl. intros ? ?. apply Hl. by right. }
  apply Hall. intros r Hr%elem_of_seqZ. lia.
Qed.

Lemma middle_fmap w :
  Z.of_nat (length w) = ksize * ksize →
  middle ksize (f <$> w) = f (middle ksize w).
Proof.
  intros Hl. destruct Hsafe as (Hodd & Hk & _).
  destruct (middle_index ksize) as (Hm & _); [done..|].
  unfold middle.
  destruct (lookup_lt_is_Some_2 w
    (Z.to_nat (ksize / 2 * ksize + ksize / 2))) as [x Hx]; [lia|].
  rewrite (nth_lookup_Some w _ _ x) by done.
  apply nth_lookup_Some. by rewrite list_lookup_fmap, Hx.
Qed.

Lemma filter_fmap malloc buf dst0 dst0' :
  Z.of_nat (length dst0) = width * height →
  Z.of_nat (length dst0') = width * height →
  malloc (to_size_t (to_size_t (ksize * ksize) * 2)) = Some buf →
  Z.of_nat (length buf) = ksize * ksize →
  median_filter_uint16 malloc (f <$> src) dst0' width height ksize
  = fmap (M:=list) f <$> median_filter_uint16 malloc src dst0 width height ksize.
Proof.
  intros Hd Hd' Hmalloc Hbuf.
  destruct (median_filter_run_spec src dst0 width height ksize
              Hsrc Hd Hsafe malloc buf Hmalloc Hbuf) as [w Hrun].
  assert (Z.of_nat (length (f <$> src)) = width * height) as Hsrc'
    by (by rewrite length_fmap).
  destruct (median_filter_run_spec (f <$> src) dst0' width height ksize
              Hsrc' Hd' Hsafe malloc buf Hmalloc Hbuf) as [w' Hrun'].
  unfold median_filter_uint16. rewrite Hrun, Hrun'.
  cbn [fmap option_fmap option_map dst]. f_equal.
  rewrite all_windows_fmap, <- !list_fmap_compose.
  apply Forall_fmap_ext.
  eapply Forall_impl;
    [apply (all_windows_values (λ _, True) src width height ksize);
       [done|done|by apply Forall_forall]|].
  intros a [_ Hl]. simpl. by apply middle_fmap.
Qed.
End monotone.

(** X15.  The filter commutes with every monotone re-mapping [f] of the
    sample values (a gain, an offset, a tone curve): filtering the
    re-mapped grid gives the re-mapped output of the filter (under the
    safety preconditions).  The filter only compares samples. *)
Theorem X15_monotone_map_commutes
    (f : Z → Z) malloc buf src dst0 width height ksize :
  (∀ a b, a ≤ b → f a ≤ f b) →
  Z.of_nat (length src) = width * height →
  Z.of_nat (length dst0) = width * height →
  safe_dims width height ksize →
  malloc (to_size_t (to_size_t (ksize * ksize) * 2)) = Some buf →
  Z.of_nat (length buf) = ksize * ksize →
  median_filter_uint16 malloc (f <$> src) dst0 width height ksize
  = fmap (M:=list) f <$> median_filter_uint16 malloc src dst0 width height ksize.
Proof.
  intros Hmono Hsrc Hdst Hsafe Hmalloc Hbuf.
  by apply (filter_fmap f Hmono src width height ksize Hsrc Hsafe malloc buf).
Qed.

Lemma X15_monotone_map_commutes_witness :
  median_filter_uint16 malloc_ok ((λ x, 2 * x + 1) <$> example_src)
    (replicate 20 0) 5 4 3
  = fmap (M:=list) (λ x, 2 * x + 1)
      <$> median_filter_uint16 malloc_ok example_src (replicate 20 0) 5 4 3.
Proof.
  apply (X15_monotone_map_commutes (λ x, 2 * x + 1) malloc_ok
           (replicate 9 0) example_src (replicate 20 0) 5 4 3);
    [intros a b Hab; lia | reflexivity | reflexivity | exact example_safe
    | reflexivity | reflexivity].
Defined.

(** ** What a column slide keeps *)

Lemma take_insert_one_take u (k : nat) (l : list Z) :
  take k (insert_one u (take k l)) = take k (insert_one u l).
Proof.
  revert k. induction l as [|x l IH]; intros k.
  - by rewrite take_nil.
  - destruct k as [|k]; [done|]. simpl.
    destruct (x <? u); simpl.
    + by rewrite IH.
    + f_equal. destruct k as [|k]; [done|]. simpl. f_equal.
      rewrite take_take. f_equal. lia.
Qed.

Lemma full_sort_sorted l : Sorted Z.le l → full_sort l = l.
Proof. intros. symmetry. by apply qsort_unique. Qed.

Lemma full_sort_snoc l u : full_sort (l ++ [u]) = insert_one u (full_sort l).
Proof.
  symmetry. apply qsort_unique.
  - apply insert_one_Sorted, full_sort_Sorted.
  - rewrite insert_one_Permutation, full_sort_Permutation.
    by rewrite Permutation_app_comm.
Qed.

Lemma foldl_insert_slot_inv a vs :
  (0 < length a)%nat → Sorted Z.le a →
  length (foldl insert_slot a vs) = length a
  ∧ Sorted Z.le (foldl insert_slot a vs).
Proof.
  revert a. induction vs as [|v vs IH]; intros a Hl Hs; simpl; [done|].
  destruct (IH (insert_slot a v)) as [-> ?].
  - rewrite insert_slot_length; lia.
  - by apply insert_slot_Sorted.
  - split; [by apply insert_slot_length|done].
Qed.

(** The slots but the last, after any number of insertions, hold the
    smallest values among what they held before and what was inserted. *)
Lemma drop_last_foldl_insert_slot a vs :
  (0 < length a)%nat → Sorted Z.le a →
  drop_last (foldl insert_slot a vs)
  = take (length a - 1) (full_sort (drop_last a ++ vs)).
Proof.
  intros Hl Hs. induction vs as [|u vs IH] using rev_ind.
  - simpl. rewrite app_nil_r.
    rewrite full_sort_sorted by (by apply drop_last_Sorted).
    unfold drop_last. by rewrite take_take, Nat.min_id.
  - destruct (foldl_insert_slot_inv a vs Hl Hs) as [Hlen Hsorted].
    rewrite foldl_snoc. unfold insert_slot at 1.
    unfold drop_last at 1.
    rewrite insert_one_length, drop_last_length, Hlen.
    replace (S (pred (length a)) - 1)%nat with (length a - 1)%nat by lia.
    rewrite IH. rewrite take_insert_one_take.
    by rewrite app_assoc, full_sort_snoc.
Qed.

(** X16.  What a column slide keeps.  Let the [ksize] samples fetched
    for the new column be [vs] followed by a last sample [v].  After the
    slide of an ascending window [w], the window holds [v] inserted into
    the [ksize * ksize - 1] smallest values among [w] without its
    minimum and the samples [vs]: the larger values are pushed out of
    the last slot, whichever column they came from. *)
Theorem X16_slide_keeps_smallest src width height ksize r c w vs v :
  Z.of_nat (length src) = width * height →
  safe_dims width height ksize →
  0 ≤ r < height → 1 ≤ c < width →
  Z.of_nat (length w) = ksize * ksize → Sorted Z.le w →
  column_values src width height ksize r c = vs ++ [v] →
  slide_window src width height ksize (ksize / 2) (to_size_t (ksize * ksize))
    r c w
  = Some (insert_one v
            (take (Z.to_nat (ksize * ksize - 1))
               (full_sort (tail w ++ vs)))).
Proof.
  intros Hsrc Hsafe Hr Hc Hw Hs Hcol.
  pose proof (safe_win_area _ _ _ Hsafe) as [Harea Hpos].
  rewrite Harea.
  rewrite (slide_window_spec src width height ksize) by (done || lia).
  f_equal. rewrite Hcol. unfold slide_spec.
  rewrite foldl_snoc. unfold insert_slot at 1.
  rewrite drop_last_foldl_insert_slot.
  - rewrite drop_last_shift_down, shift_down_length. do 2 f_equal. lia.
  - rewrite shift_down_length. lia.
  - by apply shift_down_Sorted.
Qed.

Lemma X16_slide_keeps_smallest_witness :
  slide_window example_src 5 4 3 (3 / 2) (to_size_t (3 * 3)) 1 1
    [9; 10; 11; 11; 12; 12; 20; 22; 22]
  = Some (insert_one 23
            (take (Z.to_nat (3 * 3 - 1))
               (full_sort (tail [9; 10; 11; 11; 12; 12; 20; 22; 22]
                           ++ [13; 14])))).
Proof.
  apply (X16_slide_keeps_smallest example_src 5 4 3 1 1
           [9; 10; 11; 11; 12; 12; 20; 22; 22] [13; 14] 23);
    [reflexivity | exact example_safe | lia | lia | reflexivity
    | repeat constructor; lia | reflexivity].
Defined.
